(** * fasttimerwheel: a single-level timing wheel (timerwheel.go)

    A shallow embedding of [TimerWheel] and of its operations [New], [Start],
    [step], [ScheduleAt], [ScheduleIn] and [Remove], followed by the
    properties of the wheel that the specification states.

    Modelling choices.
    - Go's [int] and [int64] are 64-bit two's complement integers, carried
      as [Z] with the wrap-around written out ([wrap64]).
    - A [time.Time] is an instant on one time line, carried as the count of
      nanoseconds since the Unix epoch; the wall-clock and the monotonic
      readings of an instant are taken to agree.
    - A [Slot] is a pointer to a [SyncBoolMap]: slots live in a heap and the
      ring holds their addresses, so that detaching a bucket and handing it
      to the callback is visible as a change of address.
    - The mutexes are not modelled: every operation runs as one atomic
      transition of the world.
    - The user's callback is opaque: a call is recorded in a log with its
      two arguments.
    - A run-time panic (index out of range, division by zero, nil
      dereference) is the outcome [Panic]. *)

From stdpp Require Import gmap strings list fin_maps.

Open Scope Z_scope.

(** ** Machine integers *)

Module Int64.

Definition min_int : Z := - 2 ^ 63.
Definition max_int : Z := 2 ^ 63 - 1.

Definition in_range (z : Z) : Prop := min_int <= z <= max_int.

Global Instance in_range_dec z : Decision (in_range z).
Proof. unfold in_range. apply _. Defined.

(** Two's complement wrap-around of a 64-bit signed integer. *)
Definition wrap64 (z : Z) : Z := (z + 2 ^ 63) mod 2 ^ 64 - 2 ^ 63.

Definition add (a b : Z) : Z := wrap64 (a + b).
Definition sub (a b : Z) : Z := wrap64 (a - b).

Lemma wrap64_id z : in_range z → wrap64 z = z.
Proof.
  unfold in_range, wrap64, min_int, max_int. intros Hz.
  rewrite Z.mod_small; lia.
Qed.

Lemma wrap64_range z : in_range (wrap64 z).
Proof.
  unfold in_range, wrap64, min_int, max_int.
  pose proof (Z.mod_pos_bound (z + 2 ^ 63) (2 ^ 64)). lia.
Qed.

End Int64.

(** ** Outcomes of a call: a value, or a run-time panic *)

Inductive result (A : Type) : Type :=
  | Ok (a : A)
  | Panic.
Arguments Ok {A} a.
Arguments Panic {A}.

Definition bind {A B : Type} (r : result A) (k : A → result B) : result B :=
  match r with
  | Ok a => k a
  | Panic => Panic
  end.

Notation "'let*' x ':=' r 'in' k" := (bind r (λ x, k))
  (at level 10, x name, r at level 100, k at level 200, only parsing).

(** [a / b] of Go on [int64]: truncated towards zero, panics when [b = 0]. *)
Definition go_div (a b : Z) : result Z :=
  if decide (b = 0) then Panic else Ok (Int64.wrap64 (Z.quot a b)).

(** [a % b] of Go on [int]: sign of the dividend, panics when [b = 0]. *)
Definition go_rem (a b : Z) : result Z :=
  if decide (b = 0) then Panic else Ok (Z.rem a b).

(** [s[i]] on a slice: panics when [i] is out of range. *)
Definition slice_get {A : Type} (s : list A) (i : Z) : result A :=
  if decide (0 <= i) then
    match s !! Z.to_nat i with
    | Some a => Ok a
    | None => Panic
    end
  else Panic.

(** ** Values of type [interface{}] used as map keys

    Two interface values are equal when their dynamic types and their
    values agree: an [int] never equals a string or a pointer. *)

Inductive iface : Type :=
  | IInt (n : Z)
  | IString (s : string)
  | IPtr (p : positive).

Global Instance iface_eq_dec : EqDecision iface.
Proof. solve_decision. Defined.

Global Instance iface_countable : Countable iface.
Proof.
  refine (inj_countable'
    (λ v, match v with
          | IInt n => inl n
          | IString s => inr (inl s)
          | IPtr p => inr (inr p)
          end)
    (λ c, match c with
          | inl n => IInt n
          | inr (inl s) => IString s
          | inr (inr p) => IPtr p
          end) _).
  by intros [].
Defined.

(** ** Time *)

Definition Time : Type := Z.

(** [time.Time{}]: January 1, year 1, in nanoseconds before the epoch. *)
Definition zero_time : Time := - 62135596800 * 10 ^ 9.

(** [t.Before(u)]. *)
Definition Before (t u : Time) : bool := bool_decide (t < u).

(** [t.UnixNano()], an [int64]. *)
Definition UnixNano (t : Time) : Z := Int64.wrap64 t.

(** [t.Add(d)]. *)
Definition Add (t : Time) (d : Z) : Time := t + d.

(** ** The errors of the package *)

Inductive error : Type :=
  | ErrScheduleInPast
  | ErrSchedulePastHighThreshold
  | ErrSlotIsFull.

Global Instance error_eq_dec : EqDecision error.
Proof. solve_decision. Defined.

(** ** The wheel and the world it lives in *)

(** Address of a [SyncBoolMap]; a [Slot] is such an address. *)
Definition Slot : Type := positive.

(** The fields of [TimerWheel]; [ticker] is the real-time source of the
    rotation driver and [expiredDataFunc] is the opaque callback, whose
    calls are logged in the world. [idSlotMap] is allocated once by [New]
    and never shared, so the wheel holds its contents. *)
Record TimerWheel : Type := mkTimerWheel {
  tickTime : Z;
  slotCount : Z;
  CurrentStartTime : Time;
  CurrentIndex : Z;
  slots : list Slot;
  maxSlotSize : Z;
  idSlotMap : gmap iface Z
}.

(** The world: the wheel, the heap of [SyncBoolMap]s (the [Data] field of
    each) and the log of the calls [expiredDataFunc(start, slot)], oldest
    first. *)
Record World : Type := mkWorld {
  wheel : TimerWheel;
  heap : gmap Slot (gmap iface bool);
  calls : list (Time * Slot)
}.

Definition set_position (tw : TimerWheel) (i : Z) (start : Time) : TimerWheel :=
  mkTimerWheel (tickTime tw) (slotCount tw) start i (slots tw)
               (maxSlotSize tw) (idSlotMap tw).

Definition set_slots (tw : TimerWheel) (s : list Slot) : TimerWheel :=
  mkTimerWheel (tickTime tw) (slotCount tw) (CurrentStartTime tw)
               (CurrentIndex tw) s (maxSlotSize tw) (idSlotMap tw).

Definition set_idSlotMap (tw : TimerWheel) (m : gmap iface Z) : TimerWheel :=
  mkTimerWheel (tickTime tw) (slotCount tw) (CurrentStartTime tw)
               (CurrentIndex tw) (slots tw) (maxSlotSize tw) m.

(** Dereference of a slot: a nil or dangling pointer panics. *)
Definition deref (h : gmap Slot (gmap iface bool)) (s : Slot)
  : result (gmap iface bool) :=
  match h !! s with
  | Some m => Ok m
  | None => Panic
  end.

(** [&SyncBoolMap{Data: make(map[interface{}]bool)}]: a fresh address
    holding the empty map. *)
Definition alloc (h : gmap Slot (gmap iface bool))
  : Slot * gmap Slot (gmap iface bool) :=
  let l := fresh (dom h) in (l, <[l := ∅]> h).

(** The contents of the bucket at ring position [i], when there is one. *)
Definition bucket (w : World) (i : Z) : option (gmap iface bool) :=
  if decide (0 <= i) then
    match slots (wheel w) !! Z.to_nat i with
    | Some s => heap w !! s
    | None => None
    end
  else None.

(** ** [New] *)

(** The largest number of bytes the runtime allocates at once (64-bit
    platforms); a slot pointer takes 8 bytes. *)
Definition maxAlloc : Z := 2 ^ 48.

(** The loop [for i := 0; i < slotCount; i++ { tw.slots[i] = ... }]. *)
Fixpoint fill_slots (n : nat) (h : gmap Slot (gmap iface bool))
  : list Slot * gmap Slot (gmap iface bool) :=
  match n with
  | O => ([], h)
  | S n' =>
      let '(l, h1) := alloc h in
      let '(ls, h2) := fill_slots n' h1 in
      (l :: ls, h2)
  end.

Definition New (tick : Z) (count : Z) (maxSize : Z)
    (h : gmap Slot (gmap iface bool)) (log : list (Time * Slot))
  : result World :=
  (* make([]Slot, slotCount) *)
  if decide (count < 0 ∨ maxAlloc < 8 * count) then Panic else
  let '(ls, h') := fill_slots (Z.to_nat count) h in
  Ok (mkWorld (mkTimerWheel tick count zero_time 0 ls maxSize ∅) h' log).

(** ** [Start]: [time.NewTicker] panics on a non-positive period *)

Definition Start (now : Time) (w : World) : result World :=
  if decide (tickTime (wheel w) <= 0) then Panic else
  Ok (mkWorld (set_position (wheel w) (CurrentIndex (wheel w)) now)
              (heap w) (calls w)).

(** ** [step], run by the rotation driver at every tick *)

(** [for k := range expiredSlot.Data { delete(tw.idSlotMap.Data, k) }]. *)
Definition purge (expired : gmap iface bool) (ids : gmap iface Z)
  : gmap iface Z :=
  map_fold (λ k _ acc, delete k acc) ids expired.

Definition step (now : Time) (w : World) : result World :=
  let tw := wheel w in
  let start := CurrentStartTime tw in
  let expiredIndex := CurrentIndex tw in
  let next := Int64.add (CurrentIndex tw) 1 in
  let next := if decide (next >= slotCount tw) then 0 else next in
  let tw := set_position tw next now in
  let* expiredSlot := slice_get (slots tw) expiredIndex in
  let* expiredData := deref (heap w) expiredSlot in
  let '(fresh_slot, h) := alloc (heap w) in
  let tw := set_slots tw (<[Z.to_nat expiredIndex := fresh_slot]> (slots tw)) in
  let tw := set_idSlotMap tw (purge expiredData (idSlotMap tw)) in
  Ok (mkWorld tw h (calls w ++ [(start, expiredSlot)])).

(** ** [ScheduleAt], [ScheduleIn] *)

(** [steps := int(d / int64(tw.tickTime))] with
    [d := at.UnixNano() - tw.CurrentStartTime.UnixNano()]. *)
Definition steps_of (tw : TimerWheel) (at_ : Time) : result Z :=
  let d := Int64.sub (UnixNano at_) (UnixNano (CurrentStartTime tw)) in
  go_div d (tickTime tw).

Definition ScheduleAt (at_ : Time) (data : iface) (w : World)
  : result (option error * World) :=
  let tw := wheel w in
  if Before at_ (CurrentStartTime tw) then Ok (Some ErrScheduleInPast, w) else
  let* steps := steps_of tw at_ in
  if decide (steps >= slotCount tw) then
    Ok (Some ErrSchedulePastHighThreshold, w)
  else
  let* index := go_rem (Int64.add (CurrentIndex tw) steps) (slotCount tw) in
  let* slot := slice_get (slots tw) index in
  let* slotData := deref (heap w) slot in
  if decide (maxSlotSize tw > 0 ∧ Z.of_nat (size slotData) > maxSlotSize tw)
  then Ok (Some ErrSlotIsFull, w)
  else
  let h := <[slot := <[data := true]> slotData]> (heap w) in
  let tw := set_idSlotMap tw (<[data := index]> (idSlotMap tw)) in
  Ok (None, mkWorld tw h (calls w)).

Definition ScheduleIn (now : Time) (in_ : Z) (data : iface) (w : World)
  : result (option error * World) :=
  ScheduleAt (Add now in_) data w.

(** ** [Remove] *)

Definition Remove (data : iface) (w : World) : result World :=
  let tw := wheel w in
  match idSlotMap tw !! data with
  | None => Ok w
  | Some index =>
      let* slot := slice_get (slots tw) index in
      let* slotData := deref (heap w) slot in
      (* delete(slot.Data, index): the key is the [int] index *)
      Ok (mkWorld tw (<[slot := delete (IInt index) slotData]> (heap w))
                  (calls w))
  end.

(** ** The invariant of a started wheel

    What [New] and [Start] establish and every operation keeps: a positive
    tick, a ring of [slotCount] pairwise distinct live slots, a position
    inside the ring, and an identity index that points inside the ring. *)

Definition wf (w : World) : Prop :=
  0 < tickTime (wheel w) ∧
  Z.of_nat (length (slots (wheel w))) = slotCount (wheel w) ∧
  8 * slotCount (wheel w) <= maxAlloc ∧
  0 <= CurrentIndex (wheel w) < slotCount (wheel w) ∧
  NoDup (slots (wheel w)) ∧
  Forall (λ s, is_Some (heap w !! s)) (slots (wheel w)) ∧
  map_Forall (λ _ i, 0 <= i < slotCount (wheel w)) (idSlotMap (wheel w)).

Global Instance wf_dec w : Decision (wf w).
Proof. unfold wf. apply _. Defined.

(** The instants [ScheduleAt] handles without overflow: both instants and
    their distance fit an [int64]. *)
Definition representable (tw : TimerWheel) (at_ : Time) : Prop :=
  Int64.in_range at_ ∧ Int64.in_range (CurrentStartTime tw) ∧
  Int64.in_range (at_ - CurrentStartTime tw).

Global Instance representable_dec tw at_ : Decision (representable tw at_).
Proof. unfold representable. apply _. Defined.

(** What [ScheduleAt] and [Remove] leave alone: the configuration, the
    position, the ring of addresses, the callback log, and every
    [SyncBoolMap] but at most one, at address [s]. *)
Definition frame_except (s : Slot) (w w' : World) : Prop :=
  tickTime (wheel w') = tickTime (wheel w) ∧
  slotCount (wheel w') = slotCount (wheel w) ∧
  maxSlotSize (wheel w') = maxSlotSize (wheel w) ∧
  CurrentIndex (wheel w') = CurrentIndex (wheel w) ∧
  CurrentStartTime (wheel w') = CurrentStartTime (wheel w) ∧
  slots (wheel w') = slots (wheel w) ∧
  calls w' = calls w ∧
  ∀ s', s' ≠ s → heap w' !! s' = heap w !! s'.

(** A call of a client of the wheel that returned: [ScheduleAt],
    [ScheduleIn] (at the instant [now]) or [Remove]. *)
Inductive client_call (w w' : World) : Prop :=
  | call_ScheduleAt at_ data e :
      ScheduleAt at_ data w = Ok (e, w') → client_call w w'
  | call_ScheduleIn now in_ data e :
      ScheduleIn now in_ data w = Ok (e, w') → client_call w w'
  | call_Remove data :
      Remove data w = Ok w' → client_call w w'.

(** ** Runs of the wheel *)

(** The loop [for range tw.ticker.C { tw.step() }] of [Start], for the
    ticks whose [time.Now()] readings are [nows], in order. *)
Fixpoint rotate (nows : list Time) (w : World) : result World :=
  match nows with
  | [] => Ok w
  | now :: rest => let* w' := step now w in rotate rest w'
  end.

(** One atomic action on the wheel: a call of a client, whose error is
    dropped as the driver under [test/] drops it, or a tick. *)
Inductive action : Type :=
  | DoScheduleAt (at_ : Time) (data : iface)
  | DoScheduleIn (now : Time) (in_ : Z) (data : iface)
  | DoRemove (data : iface)
  | DoTick (now : Time).

Definition perform (a : action) (w : World) : result World :=
  match a with
  | DoScheduleAt at_ data => let* r := ScheduleAt at_ data w in Ok r.2
  | DoScheduleIn now in_ data => let* r := ScheduleIn now in_ data w in Ok r.2
  | DoRemove data => Remove data w
  | DoTick now => step now w
  end.

Fixpoint perform_all (acts : list action) (w : World) : result World :=
  match acts with
  | [] => Ok w
  | a :: rest => let* w' := perform a w in perform_all rest w'
  end.

(** Instants between the Unix epoch and the last one an [int64] of
    nanoseconds reaches (year 2262). *)
Definition after_epoch (t : Time) : Prop := 0 <= t <= Int64.max_int.

Global Instance after_epoch_dec t : Decision (after_epoch t).
Proof. unfold after_epoch. apply _. Defined.

(** The instant an action reads or is given. *)
Definition action_after_epoch (a : action) : Prop :=
  match a with
  | DoScheduleAt at_ _ => after_epoch at_
  | DoScheduleIn now in_ _ => after_epoch (Add now in_)
  | DoRemove _ => True
  | DoTick now => after_epoch now
  end.

Global Instance action_after_epoch_dec a : Decision (action_after_epoch a).
Proof. destruct a; simpl; apply _. Defined.

(** No bucket of the ring holds more than [maxSlotSize + 1] identities,
    when a capacity is configured. *)
Definition within_capacity (w : World) : Prop :=
  maxSlotSize (wheel w) > 0 →
  ∀ i m, bucket w i = Some m →
         Z.of_nat (size m) <= maxSlotSize (wheel w) + 1.

(** Every entry of the identity index names a bucket that holds the
    identity. *)
Definition index_truthful (w : World) : Prop :=
  ∀ x i, idSlotMap (wheel w) !! x = Some i →
         ∃ m, bucket w i = Some m ∧ is_Some (m !! x).

(** [x] is in no bucket of the ring. *)
Definition in_no_bucket (x : iface) (w : World) : Prop :=
  ∀ i m, bucket w i = Some m → m !! x = None.

(** The readings of a clock that ticks exactly: [start + tick],
    [start + 2 * tick], ..., [start + n * tick]. *)
Definition exact_ticks (start tick : Z) (n : nat) : list Time :=
  (λ j, start + Z.of_nat j * tick) <$> seq 1 n.

(** ** A concrete wheel: one-second ticks, ten slots *)

Definition second : Z := 10 ^ 9.

Definition run {A : Type} (r : result A) (d : A) : A :=
  match r with Ok a => a | Panic => d end.

Definition empty_world : World :=
  mkWorld (mkTimerWheel 0 0 zero_time 0 [] 0 ∅) ∅ [].

Definition T0 : Time := 1700000000 * second.

Definition wheel10 (maxSize : Z) : World :=
  run (let* w := New second 10 maxSize ∅ [] in Start T0 w) empty_world.

(** The world of a call that returned, and its error. *)
Definition world_of (r : result (option error * World)) : World :=
  run (let* p := r in Ok p.2) empty_world.

(** What the callback has been given so far: the start of each retired
    window with the contents of the detached bucket, oldest first. *)
Definition delivered (w : World) : list (Time * option (gmap iface bool)) :=
  (λ c, (c.1, heap w !! c.2)) <$> calls w.

(** ["a"] scheduled 3.4 s after the start: bucket 3. *)
Definition wheel10_a : World :=
  world_of (ScheduleAt (T0 + 3400000000) (IString "a") (wheel10 0)).

(** ["a"] scheduled again, 5 s after the start, with no [Remove] between. *)
Definition wheel10_aa : World :=
  world_of (ScheduleAt (T0 + 5 * second) (IString "a") wheel10_a).

(** ["a"] scheduled, and three ticks later: bucket 3 is the current one. *)
Definition wheel10_a3 : World :=
  run (let* w := step (T0 + 1 * second) wheel10_a in
       let* w := step (T0 + 2 * second) w in
       step (T0 + 3 * second) w) empty_world.

(** ["a"] scheduled, then cancelled. *)
Definition wheel10_a_removed : World :=
  run (Remove (IString "a") wheel10_a) empty_world.

(** ["a"] scheduled, cancelled, and four ticks later. *)
Definition cancel_then_rotate : result World :=
  let* w := Remove (IString "a") wheel10_a in
  let* w := step (T0 + 1 * second) w in
  let* w := step (T0 + 2 * second) w in
  let* w := step (T0 + 3 * second) w in
  step (T0 + 4 * second) w.

(** Distinct identities: pointers [key 0], [key 1], ... *)
Definition key (n : nat) : iface := IPtr (Pos.of_succ_nat n).

(** [key 0], ..., [key (n - 1)] scheduled one after the other 3 s after
    the start, all into bucket 3: the errors returned, in order, and the
    final world. *)
Fixpoint fill_bucket (n : nat) (w : World) : result (list (option error) * World) :=
  match n with
  | O => Ok ([], w)
  | S n' =>
      let* p := fill_bucket n' w in
      let* r := ScheduleAt (T0 + 3 * second) (key n') p.2 in
      Ok (p.1 ++ [r.1], r.2)
  end.

(** The actions that are calls of [Remove]. *)
Definition is_Remove (a : action) : Prop :=
  match a with
  | DoRemove _ => True
  | _ => False
  end.

Global Instance is_Remove_dec a : Decision (is_Remove a).
Proof. destruct a; simpl; apply _. Defined.

(** A wheel made by [New], started at [now], then the actions [acts]. *)
Definition lifetime (tick count maxSize : Z) (h : gmap Slot (gmap iface bool))
    (log : list (Time * Slot)) (now : Time) (acts : list action)
  : result World :=
  let* w0 := New tick count maxSize h log in
  let* w := Start now w0 in
  perform_all acts w.

(** ["a"] scheduled, cancelled, ["b"] scheduled 20 s ahead, and ticks. *)
Definition busy_day : list action :=
  [ DoScheduleAt (T0 + 3400000000) (IString "a");
    DoRemove (IString "a");
    DoTick (T0 + 1 * second);
    DoScheduleIn (T0 + 1500000000) (20 * second) (IString "b");
    DoScheduleIn (T0 + 1500000000) (2 * second) (IString "c");
    DoTick (T0 + 2 * second);
    DoRemove (IString "zz") ].

(** Three distinct identities scheduled into bucket 3. *)
Definition three_into_bucket_3 : list action :=
  [ DoScheduleAt (T0 + 3 * second) (key 0);
    DoScheduleAt (T0 + 3 * second) (key 1);
    DoScheduleAt (T0 + 3 * second) (key 2) ].

(** The [int] 3 scheduled into bucket 3, then cancelled. *)
Definition wheel10_cancelled_3 : World :=
  run (let* w := perform (DoScheduleAt (T0 + 3 * second) (IInt 3)) (wheel10 0) in
       Remove (IInt 3) w) empty_world.

(** A wheel with no slot. *)
Definition wheel0 : World :=
  run (let* w := New second 0 0 ∅ [] in Start T0 w) empty_world.

(** The actions that are ticks. *)
Definition is_Tick (a : action) : Prop :=
  match a with
  | DoTick _ => True
  | _ => False
  end.

Global Instance is_Tick_dec a : Decision (is_Tick a).
Proof. destruct a; simpl; apply _. Defined.

Example wheel10_slots : slots (wheel (wheel10 0)) = [1; 2; 3; 4; 5; 6; 7; 8; 9; 10]%positive.
Proof. vm_compute. reflexivity. Qed.

Example schedule_a_3 :
  (let* r := ScheduleAt (T0 + 3400000000) (IString "a") (wheel10 0) in
   Ok (r.1, bucket r.2 3, idSlotMap (wheel r.2) !! IString "a"))
  = Ok (None, Some {[ IString "a" := true ]}, Some 3).
Proof. vm_compute. reflexivity. Qed.

Example schedule_in_15s :
  (let* r := ScheduleIn T0 (15 * second) (IString "b") (wheel10 0) in Ok r.1)
  = Ok (Some ErrSchedulePastHighThreshold).
Proof. vm_compute. reflexivity. Qed.

Example wheel10_wf : wf (wheel10 0).
Proof. apply (bool_decide_unpack _). vm_compute. exact I. Qed.

(** * Properties *)

(** ** Arithmetic of the schedule *)

Section Arithmetic.

Lemma steps_of_floor tw at_ :
  0 < tickTime tw → representable tw at_ → CurrentStartTime tw <= at_ →
  steps_of tw at_ = Ok ((at_ - CurrentStartTime tw) / tickTime tw).
Proof.
  intros Htick (Hat & Hstart & Hd) Hle.
  unfold steps_of, go_div, UnixNano, Int64.sub.
  rewrite (Int64.wrap64_id at_), (Int64.wrap64_id (CurrentStartTime tw)),
    (Int64.wrap64_id (at_ - _)) by assumption.
  destruct (decide (tickTime tw = 0)) as [?|_]; [lia|].
  f_equal.
  rewrite Z.quot_div_nonneg by lia.
  apply Int64.wrap64_id.
  unfold Int64.in_range, Int64.min_int, Int64.max_int in *.
  assert (0 <= (at_ - CurrentStartTime tw) / tickTime tw)
    by (apply Z.div_pos; lia).
  assert ((at_ - CurrentStartTime tw) / tickTime tw <= at_ - CurrentStartTime tw)
    by (apply Z.div_le_upper_bound; nia).
  lia.
Qed.

Lemma maxAlloc_no_overflow c i s :
  8 * c <= maxAlloc → 0 <= i < c → 0 <= s < c →
  Int64.add i s = i + s.
Proof.
  unfold maxAlloc. intros. apply Int64.wrap64_id.
  unfold Int64.in_range, Int64.min_int, Int64.max_int. lia.
Qed.

Lemma index_of_mod c i s :
  8 * c <= maxAlloc → 0 <= i < c → 0 <= s < c →
  go_rem (Int64.add i s) c = Ok ((i + s) mod c).
Proof.
  intros Hc Hi Hs. unfold go_rem.
  rewrite (maxAlloc_no_overflow c) by done.
  destruct (decide (c = 0)) as [?|_]; [lia|].
  by rewrite Z.rem_mod_nonneg by lia.
Qed.

End Arithmetic.

(** ** Slices, slots and the purge of the identity index *)

Section Buckets.

Lemma slice_get_Ok {A : Type} (s : list A) i a :
  slice_get s i = Ok a ↔ 0 <= i ∧ s !! Z.to_nat i = Some a.
Proof.
  unfold slice_get. destruct (decide (0 <= i)) as [Hi|Hi].
  - destruct (s !! Z.to_nat i) as [b|]; split.
    + by intros [= ->].
    + by intros [_ [= ->]].
    + discriminate.
    + by intros [_ ?].
  - split; [discriminate | by intros [? _]].
Qed.

Lemma slice_get_range {A : Type} (s : list A) i a :
  slice_get s i = Ok a → 0 <= i < Z.of_nat (length s).
Proof.
  intros [Hi Hs]%slice_get_Ok. apply lookup_lt_Some in Hs. lia.
Qed.

Lemma deref_Ok h s m : deref h s = Ok m ↔ h !! s = Some m.
Proof.
  unfold deref. destruct (h !! s); split; congruence.
Qed.

Lemma alloc_fresh h : h !! (alloc h).1 = None.
Proof.
  unfold alloc; simpl. apply not_elem_of_dom, is_fresh.
Qed.

Lemma purge_lookup expired ids x :
  purge expired ids !! x =
    match expired !! x with
    | Some _ => None
    | None => ids !! x
    end.
Proof.
  unfold purge. revert x.
  apply (map_fold_weak_ind
    (λ r m, ∀ x, r !! x = match m !! x with Some _ => None | None => ids !! x end)).
  - intros x. by rewrite lookup_empty.
  - intros k v m r Hk IH x. destruct (decide (k = x)) as [->|Hne].
    + by rewrite lookup_delete_eq, lookup_insert_eq.
    + by rewrite lookup_delete_ne, lookup_insert_ne, IH.
Qed.

Lemma NoDup_list_insert {A : Type} (l : list A) i x :
  NoDup l → x ∉ l → NoDup (<[i:=x]> l).
Proof.
  rewrite !NoDup_alt. intros Hl Hx j k y Hj Hk.
  apply list_lookup_insert_Some in Hj as [(Hij & Hxy & _)|[Hij Hj]];
    apply list_lookup_insert_Some in Hk as [(Hik & Hxy' & _)|[Hik Hk]].
  - congruence.
  - destruct Hx. rewrite Hxy. by eapply list_elem_of_lookup_2.
  - destruct Hx. rewrite Hxy'. by eapply list_elem_of_lookup_2.
  - by eapply Hl.
Qed.

(** Under the invariant every position of the ring holds a live slot. *)
Lemma wf_slot w i :
  wf w → 0 <= i < slotCount (wheel w) →
  ∃ s m, slice_get (slots (wheel w)) i = Ok s ∧ deref (heap w) s = Ok m.
Proof.
  intros (_ & Hlen & _ & _ & _ & Hlive & _) Hi.
  assert (is_Some (slots (wheel w) !! Z.to_nat i)) as [s Hs]
    by (apply lookup_lt_is_Some_2; lia).
  rewrite Forall_lookup in Hlive.
  destruct (Hlive _ _ Hs) as [m Hm].
  exists s, m. split; [|by apply deref_Ok].
  apply slice_get_Ok. split; [lia|done].
Qed.

Lemma bucket_slot w i s :
  slice_get (slots (wheel w)) i = Ok s → bucket w i = heap w !! s.
Proof.
  intros [Hi Hs]%slice_get_Ok. unfold bucket.
  destruct (decide (0 <= i)); [|lia]. by rewrite Hs.
Qed.

End Buckets.

(** ** [ScheduleAt], read backwards from its outcome *)

Section Schedule.

Implicit Types (w : World) (data x : iface).

(** The world a successful [ScheduleAt] builds. *)
Lemma ScheduleAt_success_inv at_ data w w' :
  ScheduleAt at_ data w = Ok (None, w') →
  ∃ steps index slot m,
    Before at_ (CurrentStartTime (wheel w)) = false ∧
    steps_of (wheel w) at_ = Ok steps ∧
    steps < slotCount (wheel w) ∧
    go_rem (Int64.add (CurrentIndex (wheel w)) steps) (slotCount (wheel w))
      = Ok index ∧
    slice_get (slots (wheel w)) index = Ok slot ∧
    heap w !! slot = Some m ∧
    ¬ (maxSlotSize (wheel w) > 0 ∧ Z.of_nat (size m) > maxSlotSize (wheel w)) ∧
    w' = mkWorld
           (set_idSlotMap (wheel w) (<[data := index]> (idSlotMap (wheel w))))
           (<[slot := <[data := true]> m]> (heap w)) (calls w).
Proof.
  unfold ScheduleAt, bind. cbv zeta. intros H.
  repeat case_match; simplify_eq.
  eexists _, _, _, _. repeat split; eauto; try lia.
  by apply deref_Ok.
Qed.

(** An error leaves the world as it was. *)
Lemma ScheduleAt_error_unchanged at_ data w e w' :
  ScheduleAt at_ data w = Ok (Some e, w') → w' = w.
Proof.
  unfold ScheduleAt, bind. cbv zeta. intros H.
  by repeat case_match; simplify_eq.
Qed.

Lemma ScheduleAt_frame at_ data w e w' :
  ScheduleAt at_ data w = Ok (e, w') → ∃ s, frame_except s w w'.
Proof.
  destruct e as [e|]; intros H.
  - apply ScheduleAt_error_unchanged in H as ->.
    exists 1%positive. by repeat split.
  - apply ScheduleAt_success_inv in H
      as (steps & index & slot & m & _ & _ & _ & _ & _ & _ & _ & ->).
    exists slot. repeat split; simpl.
    intros s' Hs'. by rewrite lookup_insert_ne.
Qed.

(** The outcome of [ScheduleAt] on a wheel that satisfies the invariant,
    for an instant it can represent: no panic, and each branch exactly when
    its guard holds. *)
Lemma ScheduleAt_cases at_ data w :
  wf w → representable (wheel w) at_ →
  let tw := wheel w in
  let steps := (at_ - CurrentStartTime tw) / tickTime tw in
  let index := (CurrentIndex tw + steps) mod slotCount tw in
  if decide (at_ < CurrentStartTime tw) then
    ScheduleAt at_ data w = Ok (Some ErrScheduleInPast, w)
  else if decide (steps >= slotCount tw) then
    ScheduleAt at_ data w = Ok (Some ErrSchedulePastHighThreshold, w)
  else
    0 <= steps < slotCount tw ∧ 0 <= index < slotCount tw ∧
    ∃ slot m,
      slots tw !! Z.to_nat index = Some slot ∧ heap w !! slot = Some m ∧
      ScheduleAt at_ data w =
        if decide (maxSlotSize tw > 0 ∧ Z.of_nat (size m) > maxSlotSize tw)
        then Ok (Some ErrSlotIsFull, w)
        else Ok (None,
                 mkWorld (set_idSlotMap tw (<[data := index]> (idSlotMap tw)))
                         (<[slot := <[data := true]> m]> (heap w)) (calls w)).
Proof.
  intros Hwf Hrep tw steps index. subst tw.
  pose proof Hwf as (Htick & Hlen & Halloc & Hci & _).
  pose proof Hrep as (_ & _ & Hd).
  unfold ScheduleAt, Before.
  destruct (decide (at_ < CurrentStartTime (wheel w))) as [Hlt|Hge].
  { by rewrite bool_decide_eq_true_2. }
  rewrite bool_decide_eq_false_2 by done.
  rewrite steps_of_floor by (done || lia). cbn [bind]. fold steps.
  destruct (decide (steps >= slotCount (wheel w))) as [Hhigh|Hlow]; [done|].
  assert (0 <= steps) by (apply Z.div_pos; lia).
  assert (0 <= index < slotCount (wheel w)) by (apply Z.mod_pos_bound; lia).
  rewrite index_of_mod by (done || lia). cbn [bind]. fold index.
  destruct (wf_slot w index Hwf) as (slot & m & Hslot & Hm); [done|].
  rewrite Hslot. cbn [bind]. rewrite Hm. cbn [bind].
  repeat split; try lia.
  exists slot, m.
  apply slice_get_Ok in Hslot as [_ Hslot]. apply deref_Ok in Hm.
  repeat split; try done.
Qed.

End Schedule.

(** ** [Remove] and [step], unfolded under the invariant *)

Section RemoveStep.

Implicit Types (w : World) (data x : iface) (now : Time).

Lemma Remove_absent data w :
  idSlotMap (wheel w) !! data = None → Remove data w = Ok w.
Proof. unfold Remove. by intros ->. Qed.

Lemma Remove_present data w index :
  wf w → idSlotMap (wheel w) !! data = Some index →
  ∃ slot m,
    slice_get (slots (wheel w)) index = Ok slot ∧
    heap w !! slot = Some m ∧
    Remove data w =
      Ok (mkWorld (wheel w) (<[slot := delete (IInt index) m]> (heap w))
                  (calls w)).
Proof.
  intros Hwf Hx. pose proof Hwf as (_ & _ & _ & _ & _ & _ & Hids).
  destruct (wf_slot w index Hwf) as (slot & m & Hslot & Hm).
  { by apply (Hids data). }
  exists slot, m. unfold Remove. rewrite Hx, Hslot. cbn [bind].
  rewrite Hm. cbn [bind]. by apply deref_Ok in Hm.
Qed.

Lemma Remove_inv data w w' :
  Remove data w = Ok w' →
  w' = w ∨
  ∃ index slot m,
    idSlotMap (wheel w) !! data = Some index ∧
    slice_get (slots (wheel w)) index = Ok slot ∧
    heap w !! slot = Some m ∧
    w' = mkWorld (wheel w) (<[slot := delete (IInt index) m]> (heap w))
                 (calls w).
Proof.
  unfold Remove, bind. intros H.
  repeat case_match; simplify_eq; [|by left].
  right. eexists _, _, _. repeat split; eauto. by apply deref_Ok.
Qed.

Lemma Remove_frame data w w' :
  Remove data w = Ok w' → ∃ s, frame_except s w w'.
Proof.
  intros [->|(index & slot & m & _ & _ & _ & ->)]%Remove_inv.
  - exists 1%positive. by repeat split.
  - exists slot. repeat split; simpl.
    intros s' Hs'. by rewrite lookup_insert_ne.
Qed.

(** The position after a tick. *)
Lemma next_index c i :
  8 * c <= maxAlloc → 0 <= i < c →
  (if decide (Int64.add i 1 >= c) then 0 else Int64.add i 1) = (i + 1) mod c.
Proof.
  intros Hc Hi.
  assert (Int64.add i 1 = i + 1) as ->.
  { apply Int64.wrap64_id. unfold maxAlloc in Hc.
    unfold Int64.in_range, Int64.min_int, Int64.max_int. lia. }
  destruct (decide (i + 1 >= c)).
  - assert (i + 1 = c) as -> by lia. by rewrite Z.mod_same by lia.
  - by rewrite Z.mod_small by lia.
Qed.

(** The world one rotation step builds. *)
Lemma step_cases now w :
  wf w →
  let tw := wheel w in
  ∃ expired detached,
    slots tw !! Z.to_nat (CurrentIndex tw) = Some expired ∧
    heap w !! expired = Some detached ∧
    step now w =
      Ok (mkWorld
            (mkTimerWheel (tickTime tw) (slotCount tw) now
               ((CurrentIndex tw + 1) mod slotCount tw)
               (<[Z.to_nat (CurrentIndex tw) := fresh (dom (heap w))]> (slots tw))
               (maxSlotSize tw) (purge detached (idSlotMap tw)))
            (<[fresh (dom (heap w)) := ∅]> (heap w))
            (calls w ++ [(CurrentStartTime tw, expired)])).
Proof.
  intros Hwf tw. subst tw.
  pose proof Hwf as (_ & _ & Halloc & Hci & _).
  destruct (wf_slot w _ Hwf Hci) as (expired & detached & Hslot & Hm).
  exists expired, detached. unfold step. cbv zeta. cbn [slots set_position].
  rewrite Hslot. cbn [bind]. rewrite Hm. cbn [bind alloc].
  rewrite next_index by done.
  apply slice_get_Ok in Hslot as [_ Hslot]. apply deref_Ok in Hm.
  by repeat split.
Qed.

End RemoveStep.

(** ** The invariant is established by [New] and [Start] and kept by
       [ScheduleAt], [Remove] and [step] *)

Section Invariant.

Implicit Types (w : World) (data x : iface) (now : Time).

Lemma fill_slots_spec n h ls h' :
  fill_slots n h = (ls, h') →
  length ls = n ∧ NoDup ls ∧
  Forall (λ s, h !! s = None ∧ h' !! s = Some ∅) ls ∧
  (∀ s v, h !! s = Some v → h' !! s = Some v).
Proof.
  revert h ls h'. induction n as [|n IH]; intros h ls h'; simpl.
  - intros [= <- <-]. repeat split; [constructor | constructor | done].
  - destruct (fill_slots n (<[fresh (dom h) := ∅]> h)) as [ls1 h2] eqn:E.
    intros [= <- <-].
    destruct (IH _ _ _ E) as (Hlen & Hnd & Hall & Hkeep).
    pose proof (alloc_fresh h) as Hfresh. simpl in Hfresh.
    rewrite Forall_forall in Hall.
    repeat split.
    + simpl. by rewrite Hlen.
    + constructor; [|done]. intros Hin.
      destruct (Hall _ Hin) as [Hnone _].
      by rewrite lookup_insert_eq in Hnone.
    + constructor.
      * split; [done|]. apply Hkeep. by rewrite lookup_insert_eq.
      * apply Forall_forall. intros s Hs. destruct (Hall _ Hs) as [Hnone ?].
        split; [|done].
        destruct (decide (fresh (dom h) = s)) as [<-|Hne]; [done|].
        by rewrite lookup_insert_ne in Hnone.
    + intros s v Hs. apply Hkeep.
      rewrite lookup_insert_ne; [done|]. intros <-. congruence.
Qed.

Lemma New_Start_wf tick count maxSize h log now :
  0 < tick → 0 < count → 8 * count <= maxAlloc →
  ∃ w0 w,
    New tick count maxSize h log = Ok w0 ∧ Start now w0 = Ok w ∧ wf w ∧
    CurrentIndex (wheel w) = 0 ∧ CurrentStartTime (wheel w) = now ∧
    idSlotMap (wheel w) = ∅ ∧
    ∀ i, 0 <= i < count → bucket w i = Some ∅.
Proof.
  intros Htick Hcount Halloc. unfold New.
  destruct (decide (count < 0 ∨ maxAlloc < 8 * count)) as [?|_]; [lia|].
  destruct (fill_slots (Z.to_nat count) h) as [ls h'] eqn:E.
  destruct (fill_slots_spec _ _ _ _ E) as (Hlen & Hnd & Hall & _).
  eexists _, _. split; [done|]. unfold Start; simpl.
  destruct (decide (tick <= 0)) as [?|_]; [lia|]. split; [done|].
  repeat split; simpl; try lia; try done.
  - eapply Forall_impl; [exact Hall|]. by intros s [_ ->].
  - unfold bucket; simpl. intros i Hi.
    destruct (decide (0 <= i)); [|lia].
    assert (is_Some (ls !! Z.to_nat i)) as [s Hs]
      by (apply lookup_lt_is_Some_2; lia).
    rewrite Hs. rewrite Forall_lookup in Hall. by apply (Hall _ _ Hs).
Qed.

Lemma ScheduleAt_wf at_ data w e w' :
  wf w → ScheduleAt at_ data w = Ok (e, w') → wf w'.
Proof.
  intros Hwf H. destruct e as [e|].
  { by apply ScheduleAt_error_unchanged in H as ->. }
  apply ScheduleAt_success_inv in H
    as (steps & index & slot & m & _ & _ & _ & _ & Hslot & Hm & _ & ->).
  destruct Hwf as (Htick & Hlen & Halloc & Hci & Hnd & Hlive & Hids).
  unfold wf; simpl; split_and!; try done; try lia.
  - eapply Forall_impl; [exact Hlive|]. intros s Hs. simpl in *.
    destruct (decide (slot = s)) as [->|Hne].
    + by rewrite lookup_insert_eq.
    + by rewrite lookup_insert_ne.
  - apply map_Forall_insert_2; [|done].
    apply slice_get_range in Hslot. lia.
Qed.

Lemma Remove_wf data w w' : wf w → Remove data w = Ok w' → wf w'.
Proof.
  intros Hwf [->|(index & slot & m & _ & _ & _ & ->)]%Remove_inv; [done|].
  destruct Hwf as (Htick & Hlen & Halloc & Hci & Hnd & Hlive & Hids).
  unfold wf; simpl; split_and!; try done; try lia.
  eapply Forall_impl; [exact Hlive|]. intros s Hs. simpl in *.
  destruct (decide (slot = s)) as [->|Hne].
  - by rewrite lookup_insert_eq.
  - by rewrite lookup_insert_ne.
Qed.

Lemma step_wf now w w' : wf w → step now w = Ok w' → wf w'.
Proof.
  intros Hwf H.
  destruct (step_cases now w Hwf) as (expired & detached & _ & _ & Heq).
  rewrite Heq in H. injection H as <-.
  destruct Hwf as (Htick & Hlen & Halloc & Hci & Hnd & Hlive & Hids).
  pose proof (alloc_fresh (heap w)) as Hfresh. simpl in Hfresh.
  unfold wf; simpl; split_and!; try done.
  - by rewrite length_insert.
  - apply Z.mod_pos_bound. lia.
  - apply Z.mod_pos_bound. lia.
  - apply NoDup_list_insert; [done|]. intros Hin.
    rewrite Forall_forall in Hlive. destruct (Hlive _ Hin) as [v Hv].
    congruence.
  - apply Forall_insert; [|by rewrite lookup_insert_eq].
    eapply Forall_impl; [exact Hlive|]. intros s [v Hs]. simpl in *.
    rewrite lookup_insert_ne; [by eexists|]. intros <-. congruence.
  - intros x i Hx. rewrite purge_lookup in Hx.
    destruct (detached !! x); [done|]. by apply (Hids x).
Qed.

End Invariant.

(** * The claims of the specification *)

Section ScheduleClaims.

Implicit Types (w : World) (data x : iface).

(** C3. [ScheduleAt(t, x)] returns [ErrScheduleInPast] if and only if [t]
    is before [CurrentStartTime]; when it does, the world it returns is the
    world it was given: no bucket and no entry of the identity index has
    changed. *)
Theorem ScheduleAt_in_past at_ data w :
  ((∃ w', ScheduleAt at_ data w = Ok (Some ErrScheduleInPast, w'))
     ↔ Before at_ (CurrentStartTime (wheel w)) = true) ∧
  (∀ w', ScheduleAt at_ data w = Ok (Some ErrScheduleInPast, w') → w' = w).
Proof.
  split.
  - split.
    + intros [w' H]. revert H. unfold ScheduleAt, bind. cbv zeta.
      destruct (Before at_ (CurrentStartTime (wheel w))); [done|].
      intros H. repeat case_match; simplify_eq.
    + intros Hb. exists w. unfold ScheduleAt. by rewrite Hb.
  - intros w'. apply ScheduleAt_error_unchanged.
Qed.





Lemma ScheduleAt_in_past_witness :
  ∃ w', ScheduleAt (T0 - 1) (IString "a") (wheel10 0)
        = Ok (Some ErrScheduleInPast, w') ∧ w' = wheel10 0.
Proof.
  destruct (ScheduleAt_in_past (T0 - 1) (IString "a") (wheel10 0))
    as [[_ Hret] Hsame].
  destruct Hret as [w' Hw']; [vm_compute; reflexivity|].
  exists w'. split; [exact Hw' | exact (Hsame w' Hw')].
Defined.

End ScheduleClaims.

Section RotationClaims.

Implicit Types (w : World) (data x : iface) (now : Time).

(** C6. A rotation step on a wheel that satisfies the invariant, with
    [expiredIndex] and [start] the position and the window start before the
    step: the ring holds at [expiredIndex] a freshly allocated empty bucket
    in place of the detached one; the identity index has lost exactly the
    identities the detached bucket contains; and the callback has been
    called once more, with [(start, detached bucket)], the detached bucket
    holding the contents the slot had. *)
Theorem step_retires now w :
  wf w →
  let expiredIndex := CurrentIndex (wheel w) in
  let start := CurrentStartTime (wheel w) in
  ∃ expired detached fresh_slot w',
    step now w = Ok w' ∧
    slots (wheel w) !! Z.to_nat expiredIndex = Some expired ∧
    heap w !! expired = Some detached ∧
    heap w !! fresh_slot = None ∧
    slots (wheel w')
      = <[Z.to_nat expiredIndex := fresh_slot]> (slots (wheel w)) ∧
    bucket w' expiredIndex = Some ∅ ∧
    (∀ s, s ≠ fresh_slot → heap w' !! s = heap w !! s) ∧
    (∀ x, idSlotMap (wheel w') !! x =
            match detached !! x with
            | Some _ => None
            | None => idSlotMap (wheel w) !! x
            end) ∧
    calls w' = calls w ++ [(start, expired)] ∧
    heap w' !! expired = Some detached.
Proof.
  intros Hwf expiredIndex start.
  destruct (step_cases now w Hwf) as (expired & detached & Hslot & Hm & Heq).
  pose proof (alloc_fresh (heap w)) as Hfresh. simpl in Hfresh.
  pose proof Hwf as (_ & Hlen & _ & Hci & _).
  eexists expired, detached, (fresh (dom (heap w))), _.
  split; [exact Heq|]. simpl. split_and!; try done.
  - unfold bucket; simpl. fold expiredIndex.
    destruct (decide (0 <= expiredIndex)); [|lia].
    rewrite list_lookup_insert_eq by (subst expiredIndex; lia).
    by rewrite lookup_insert_eq.
  - intros s Hs. by rewrite lookup_insert_ne.
  - intros x. apply purge_lookup.
  - rewrite lookup_insert_ne; [done|]. intros Heq'. congruence.
Qed.

Lemma step_retires_witness :
  ∃ w', step (T0 + 4 * second) wheel10_a3 = Ok w' ∧
        bucket w' 3 = Some ∅ ∧
        idSlotMap (wheel w') !! IString "a" = None ∧
        last (delivered w')
          = Some (T0 + 3 * second, Some {[ IString "a" := true ]}).
Proof.
  destruct (step_retires (T0 + 4 * second) wheel10_a3)
    as (expired & detached & fresh_slot & w' &
        Hstep & Hslot & Hm & _ & _ & Hb & _ & Hids & Hcalls & Hdet).
  { apply (bool_decide_unpack _). vm_compute. exact I. }
  exists w'. split; [exact Hstep|].
  vm_compute in Hslot. injection Hslot as <-.
  split; [exact Hb|].
  split.
  { pose proof (f_equal (λ o, o ≫= (λ m, m !! IString "a")) Hm) as Ha.
    cbv beta in Ha. cbn [mbind option_bind] in Ha.
    rewrite Hids, <- Ha. vm_compute. reflexivity. }
  unfold delivered. rewrite Hcalls, fmap_app. cbn [fmap list_fmap].
  rewrite last_snoc. cbv beta. cbn [fst snd]. rewrite Hdet, <- Hm.
  vm_compute. reflexivity.
Defined.

(** C7. On a wheel that satisfies the invariant (in particular
    [0 <= CurrentIndex < slotCount]) a rotation step returns and sets
    [CurrentIndex] to [(CurrentIndex + 1) mod slotCount]: one position
    further, back to [0] after the last one, and inside [[0, slotCount)]. *)
Theorem step_advances now w :
  wf w →
  ∃ w', step now w = Ok w' ∧
    slotCount (wheel w') = slotCount (wheel w) ∧
    CurrentIndex (wheel w')
      = (CurrentIndex (wheel w) + 1) mod slotCount (wheel w) ∧
    (CurrentIndex (wheel w') = CurrentIndex (wheel w) + 1 ∨
     CurrentIndex (wheel w) = slotCount (wheel w) - 1 ∧
     CurrentIndex (wheel w') = 0) ∧
    0 <= CurrentIndex (wheel w') < slotCount (wheel w').
Proof.
  intros Hwf.
  destruct (step_cases now w Hwf) as (expired & detached & _ & _ & Heq).
  pose proof Hwf as (_ & _ & _ & Hci & _).
  eexists. split; [exact Heq|]. simpl. split_and!; try done.
  - destruct (decide (CurrentIndex (wheel w) + 1 = slotCount (wheel w)))
      as [Hlast|Hnot].
    + right. rewrite Hlast, Z.mod_same by lia. lia.
    + left. apply Z.mod_small. lia.
  - apply Z.mod_pos_bound. lia.
  - apply Z.mod_pos_bound. lia.
Qed.

Lemma step_advances_witness :
  ∃ w', step (T0 + 4 * second) wheel10_a3 = Ok w' ∧
        CurrentIndex (wheel w') = 4.
Proof.
  destruct (step_advances (T0 + 4 * second) wheel10_a3)
    as (w' & Hstep & _ & Hci & _).
  { apply (bool_decide_unpack _). vm_compute. exact I. }
  exists w'. split; [exact Hstep | exact Hci].
Defined.

End RotationClaims.

Section CancellationClaims.

Implicit Types (w : World) (data x : iface).

(** The bucket and the index entry a successful [ScheduleAt] writes. *)
Lemma ScheduleAt_success_target at_ x w w' :
  wf w → representable (wheel w) at_ →
  ScheduleAt at_ x w = Ok (None, w') →
  let steps := (at_ - CurrentStartTime (wheel w)) / tickTime (wheel w) in
  let index := (CurrentIndex (wheel w) + steps) mod slotCount (wheel w) in
  0 <= steps < slotCount (wheel w) ∧
  (∃ m, bucket w index = Some m ∧ bucket w' index = Some (<[x := true]> m)) ∧
  idSlotMap (wheel w') = <[x := index]> (idSlotMap (wheel w)) ∧
  idSlotMap (wheel w') !! x = Some index.
Proof.
  intros Hwf Hrep H steps index.
  pose proof (ScheduleAt_cases at_ x w Hwf Hrep) as Hc. cbv zeta in Hc.
  fold steps in Hc. fold index in Hc.
  destruct (decide (at_ < CurrentStartTime (wheel w)));
    [by rewrite Hc in H|].
  destruct (decide (steps >= slotCount (wheel w)));
    [by rewrite Hc in H|].
  destruct Hc as (Hsteps & Hindex & slot & m & Hslot & Hm & Heq).
  rewrite Heq in H. case_decide; [done|]. injection H as <-.
  split_and!; simpl; try lia; try done.
  - exists m. unfold bucket; simpl.
    destruct (decide (0 <= index)); [|lia].
    rewrite Hslot. by rewrite lookup_insert_eq.
  - by rewrite lookup_insert_eq.
Qed.

(** What [Remove] does to the bucket it reaches: it deletes the key
    [IInt index], the position of the bucket, and keeps every other key,
    the identity itself included unless it is that very integer. *)
Lemma Remove_keeps_other_keys x w index m :
  wf w → idSlotMap (wheel w) !! x = Some index → bucket w index = Some m →
  ∃ w', Remove x w = Ok w' ∧
        bucket w' index = Some (delete (IInt index) m).
Proof.
  intros Hwf Hx Hb.
  destruct (Remove_present x w index Hwf Hx) as (slot & m' & Hslot & Hm & Heq).
  rewrite (bucket_slot _ _ _ Hslot), Hm in Hb. injection Hb as ->.
  eexists. split; [exact Heq|].
  erewrite bucket_slot by exact Hslot. simpl. by rewrite lookup_insert_eq.
Qed.

(** C8. [Remove(x)] never fails on a wheel that satisfies the invariant:
    it returns, and it has no error to return. When [x] is absent from the
    identity index the world is unchanged; when [x] is present its entry in
    the identity index is still there afterwards: the identity index is
    the same in both cases. *)
Theorem Remove_never_fails data w :
  wf w →
  ∃ w', Remove data w = Ok w' ∧
        idSlotMap (wheel w') = idSlotMap (wheel w) ∧
        (idSlotMap (wheel w) !! data = None → w' = w) ∧
        (∀ index, idSlotMap (wheel w) !! data = Some index →
                  idSlotMap (wheel w') !! data = Some index).
Proof.
  intros Hwf. destruct (idSlotMap (wheel w) !! data) as [index|] eqn:Hx.
  - destruct (Remove_present data w index Hwf Hx)
      as (slot & m & _ & _ & Heq).
    eexists. split; [exact Heq|]. simpl. split_and!; [done|done|].
    by intros ? [= <-].
  - exists w. split; [by apply Remove_absent|]. by split_and!.
Qed.

Lemma Remove_never_fails_witness :
  ∃ w', Remove (IString "a") wheel10_a = Ok w' ∧
        idSlotMap (wheel w') !! IString "a" = Some 3.
Proof.
  destruct (Remove_never_fails (IString "a") wheel10_a)
    as (w' & Hret & _ & _ & Hkept).
  { apply (bool_decide_unpack _). vm_compute. exact I. }
  exists w'. split; [exact Hret|].
  apply Hkept. vm_compute. reflexivity.
Defined.

(** C9. When [x] sits in bucket [b] with the identity index mapping [x] to
    [b], a later successful [ScheduleAt] of [x] that targets another
    bucket [b'] maps [x] to [b'] in the identity index and leaves bucket
    [b] as it was: [x] is then in the two buckets, which are two distinct
    [SyncBoolMap]s. *)
Theorem ScheduleAt_again_duplicates at_ x w w' b m :
  wf w → representable (wheel w) at_ →
  idSlotMap (wheel w) !! x = Some b →
  bucket w b = Some m → m !! x = Some true →
  ScheduleAt at_ x w = Ok (None, w') →
  let steps := (at_ - CurrentStartTime (wheel w)) / tickTime (wheel w) in
  let b' := (CurrentIndex (wheel w) + steps) mod slotCount (wheel w) in
  b' ≠ b →
  idSlotMap (wheel w') !! x = Some b' ∧
  bucket w' b = Some m ∧
  (∃ m', bucket w' b' = Some m' ∧ m' !! x = Some true) ∧
  slots (wheel w') !! Z.to_nat b ≠ slots (wheel w') !! Z.to_nat b'.
Proof.
  intros Hwf Hrep Hx Hb Hin H steps b' Hne.
  destruct (ScheduleAt_success_target at_ x w w' Hwf Hrep H)
    as (Hsteps & (m0 & Hb0 & Hb') & _ & Hidx).
  fold steps in Hsteps, Hb0, Hb', Hidx. fold b' in Hb0, Hb', Hidx.
  pose proof Hwf as (_ & Hlen & _ & Hci & Hnd & _ & Hids).
  assert (0 <= b < slotCount (wheel w)) as Hbr by (by apply (Hids x)).
  assert (0 <= b' < slotCount (wheel w)) as Hbr'
    by (apply Z.mod_pos_bound; lia).
  apply ScheduleAt_success_inv in H
    as (? & index & slot & ms & _ & _ & _ & _ & Hslot & Hms & _ & ->).
  simpl in *.
  assert (index = b') as ->.
  { rewrite lookup_insert_eq in Hidx. congruence. }
  apply slice_get_Ok in Hslot as [_ Hslot].
  assert (is_Some (slots (wheel w) !! Z.to_nat b)) as [sb Hsb]
    by (apply lookup_lt_is_Some_2; lia).
  assert (sb ≠ slot) as Hdiff.
  { intros ->. apply Hne.
    pose proof (NoDup_lookup _ _ _ _ Hnd Hslot Hsb). lia. }
  split_and!.
  - done.
  - unfold bucket in *; simpl. destruct (decide (0 <= b)); [|lia].
    rewrite Hsb in *. by rewrite lookup_insert_ne.
  - eexists. split; [exact Hb'|]. by rewrite lookup_insert_eq.
  - rewrite Hsb, Hslot. congruence.
Qed.

Lemma ScheduleAt_again_duplicates_witness :
  idSlotMap (wheel wheel10_aa) !! IString "a" = Some 5 ∧
  bucket wheel10_aa 3 = Some {[ IString "a" := true ]} ∧
  ∃ m', bucket wheel10_aa 5 = Some m' ∧ m' !! IString "a" = Some true.
Proof.
  destruct (ScheduleAt_again_duplicates (T0 + 5 * second) (IString "a")
              wheel10_a wheel10_aa 3 {[ IString "a" := true ]})
    as (Hidx & Hold & Hnew & _).
  - apply (bool_decide_unpack _). vm_compute. exact I.
  - apply (bool_decide_unpack _). vm_compute. exact I.
  - vm_compute. reflexivity.
  - vm_compute. reflexivity.
  - vm_compute. reflexivity.
  - vm_compute. reflexivity.
  - vm_compute. discriminate.
  - split; [exact Hidx|]. split; [exact Hold | exact Hnew].
Defined.

End CancellationClaims.

Section FrameClaims.

Implicit Types (w : World) (data x : iface) (now : Time).

(** C10. On a wheel that satisfies the invariant, a call of [ScheduleAt]
    (or [ScheduleIn]) or of [Remove] leaves [CurrentIndex],
    [CurrentStartTime], [tickTime], [slotCount], [maxSlotSize], the ring of
    slot addresses and the callback log as they were, and changes the
    contents of at most one [SyncBoolMap]; the rotation step is the
    operation that moves [CurrentIndex], sets [CurrentStartTime] and puts
    another [SyncBoolMap] in a position of the ring. *)
Theorem client_calls_frame w :
  wf w →
  (∀ w', client_call w w' → ∃ s, frame_except s w w') ∧
  (∀ now, ∃ w',
     step now w = Ok w' ∧
     CurrentStartTime (wheel w') = now ∧
     CurrentIndex (wheel w')
       = (CurrentIndex (wheel w) + 1) mod slotCount (wheel w) ∧
     slots (wheel w') !! Z.to_nat (CurrentIndex (wheel w))
       ≠ slots (wheel w) !! Z.to_nat (CurrentIndex (wheel w))).
Proof.
  intros Hwf. split.
  - intros w' [at_ data e H|now in_ data e H|data H].
    + by eapply ScheduleAt_frame.
    + by eapply ScheduleAt_frame.
    + by eapply Remove_frame.
  - intros now.
    destruct (step_cases now w Hwf) as (expired & detached & Hslot & Hm & Heq).
    pose proof Hwf as (_ & Hlen & _ & Hci & _).
    pose proof (alloc_fresh (heap w)) as Hfresh. simpl in Hfresh.
    eexists. split; [exact Heq|]. simpl. split_and!; try done.
    rewrite list_lookup_insert_eq by lia. rewrite Hslot.
    intros [= Hsame]. congruence.
Qed.

Lemma client_calls_frame_witness :
  ∃ s, frame_except s wheel10_a wheel10_a_removed.
Proof.
  apply (client_calls_frame wheel10_a).
  - apply (bool_decide_unpack _). vm_compute. exact I.
  - apply call_Remove with (IString "a"). vm_compute. reflexivity.
Defined.

End FrameClaims.

Section Defects.

(** The capacity guard of [ScheduleAt], on a wheel that satisfies the
    invariant: an insertion that reaches the bucket is refused exactly when
    [maxSlotSize > 0] and the bucket already holds more than [maxSlotSize]
    identities. A bucket that holds exactly [maxSlotSize] accepts one
    more. *)
Lemma ScheduleAt_capacity_guard at_ data w m :
  wf w → representable (wheel w) at_ →
  let steps := (at_ - CurrentStartTime (wheel w)) / tickTime (wheel w) in
  let index := (CurrentIndex (wheel w) + steps) mod slotCount (wheel w) in
  CurrentStartTime (wheel w) <= at_ → steps < slotCount (wheel w) →
  bucket w index = Some m →
  (∃ w', ScheduleAt at_ data w = Ok (Some ErrSlotIsFull, w')) ↔
  maxSlotSize (wheel w) > 0 ∧ Z.of_nat (size m) > maxSlotSize (wheel w).
Proof.
  intros Hwf Hrep steps index Hle Hlow Hb.
  pose proof (ScheduleAt_cases at_ data w Hwf Hrep) as Hc. cbv zeta in Hc.
  fold steps in Hc. fold index in Hc.
  destruct (decide (at_ < CurrentStartTime (wheel w))); [lia|].
  destruct (decide (steps >= slotCount (wheel w))); [lia|].
  destruct Hc as (_ & Hindex & slot & m' & Hslot & Hm & Heq).
  unfold bucket in Hb. destruct (decide (0 <= index)); [|lia].
  rewrite Hslot, Hm in Hb. injection Hb as ->.
  rewrite Heq. case_decide; split; try done.
  - intros _. by exists w.
  - by intros [w' [=]].
Qed.

(** C1 (the code does not do this). ["a"] is scheduled 3.4 s after the
    start of a ten-slot, one-second wheel: the identity index maps it to 3
    and bucket 3 holds it. [Remove("a")] then returns and bucket 3 still
    holds ["a"], because [Remove] deletes the key [3], the position, and
    not ["a"]; four rotation steps later the callback is given
    [(T0 + 3 s, bucket)] with ["a"] in the bucket. *)
Theorem Remove_leaves_identity_in_bucket :
  idSlotMap (wheel wheel10_a) !! IString "a" = Some 3 ∧
  bucket wheel10_a 3 = Some {[ IString "a" := true ]} ∧
  Remove (IString "a") wheel10_a = Ok wheel10_a_removed ∧
  bucket wheel10_a_removed 3 = Some {[ IString "a" := true ]} ∧
  (let* w := cancel_then_rotate in Ok (last (delivered w)))
    = Ok (Some (T0 + 3 * second, Some {[ IString "a" := true ]})).
Proof. split_and!; vm_compute; reflexivity. Qed.

(** [Remove] does delete an identity that is the [int] equal to the
    position of its bucket. *)
Example Remove_deletes_position_key :
  let w := world_of (ScheduleAt (T0 + 3 * second) (IInt 3) (wheel10 0)) in
  bucket w 3 = Some {[ IInt 3 := true ]} ∧
  (let* w' := Remove (IInt 3) w in Ok (bucket w' 3)) = Ok (Some ∅).
Proof. split; vm_compute; reflexivity. Qed.

(** C2 (the code does not do this). On a wheel with [maxSlotSize = 1],
    three distinct identities are scheduled into bucket 3 within one
    window: the first two insertions succeed and only the third returns
    [ErrSlotIsFull], so the bucket holds 2 identities, one more than
    [maxSlotSize]. *)
Theorem ScheduleAt_admits_one_over_capacity :
  maxSlotSize (wheel (wheel10 1)) = 1 ∧
  (let* p := fill_bucket 3 (wheel10 1) in
   Ok (p.1, size <$> bucket p.2 3))
    = Ok ([None; None; Some ErrSlotIsFull], Some 2%nat).
Proof. split; vm_compute; reflexivity. Qed.

End Defects.

(** * Runs of the wheel: rotation, delivery and what sequences of calls keep *)

Section StepOnBuckets.

Implicit Types (w : World) (data x : iface) (now : Time).

Lemma bucket_Some w i m :
  bucket w i = Some m ↔
  0 <= i ∧ ∃ s, slots (wheel w) !! Z.to_nat i = Some s ∧ heap w !! s = Some m.
Proof.
  unfold bucket. destruct (decide (0 <= i)) as [Hi|Hi].
  - destruct (slots (wheel w) !! Z.to_nat i) as [s|] eqn:Hs.
    + split; [intros Hm; split; [done|by exists s] |].
      by intros (_ & s' & [= <-] & Hm).
    + split; [done | by intros (_ & s' & [=] & _)].
  - split; [done | by intros [? _]].
Qed.

(** One rotation step, bucket by bucket: the current bucket is detached
    and handed to the callback, an empty one takes its place, every other
    bucket is as it was, and the identity index loses the detached keys. *)
Lemma step_buckets now w :
  wf w →
  ∃ w' detached,
    step now w = Ok w' ∧ wf w' ∧
    bucket w (CurrentIndex (wheel w)) = Some detached ∧
    bucket w' (CurrentIndex (wheel w)) = Some ∅ ∧
    (∀ i, i ≠ CurrentIndex (wheel w) → bucket w' i = bucket w i) ∧
    slotCount (wheel w') = slotCount (wheel w) ∧
    tickTime (wheel w') = tickTime (wheel w) ∧
    maxSlotSize (wheel w') = maxSlotSize (wheel w) ∧
    CurrentIndex (wheel w')
      = (CurrentIndex (wheel w) + 1) mod slotCount (wheel w) ∧
    CurrentStartTime (wheel w') = now ∧
    (∀ x, idSlotMap (wheel w') !! x =
            match detached !! x with
            | Some _ => None
            | None => idSlotMap (wheel w) !! x
            end) ∧
    last (delivered w')
      = Some (CurrentStartTime (wheel w), Some detached).
Proof.
  intros Hwf.
  destruct (step_cases now w Hwf) as (expired & detached & Hslot & Hm & Heq).
  pose proof Hwf as (_ & Hlen & _ & Hci & _ & Hlive & _).
  pose proof (alloc_fresh (heap w)) as Hfresh. simpl in Hfresh.
  rewrite Forall_lookup in Hlive.
  eexists _, detached. split; [exact Heq|].
  split; [by eapply step_wf|]. simpl. split_and!; try done.
  - apply bucket_Some. split; [lia|]. by exists expired.
  - apply bucket_Some. split; [lia|]. simpl.
    exists (fresh (dom (heap w))).
    rewrite list_lookup_insert_eq by lia. by rewrite lookup_insert_eq.
  - intros i Hi. unfold bucket; simpl.
    destruct (decide (0 <= i)); [|done].
    rewrite list_lookup_insert_ne by lia.
    destruct (slots (wheel w) !! Z.to_nat i) as [s|] eqn:Hs; [|done].
    destruct (Hlive _ _ Hs) as [v Hv].
    rewrite lookup_insert_ne; [done|]. intros <-. congruence.
  - intros x. apply purge_lookup.
  - unfold delivered; simpl. rewrite fmap_app. cbn [fmap list_fmap].
    rewrite last_snoc. simpl. rewrite lookup_insert_ne; [by rewrite Hm|].
    intros <-. congruence.
Qed.

Lemma mod_shift c a : 0 < c → - c <= a < 0 → a mod c = a + c.
Proof.
  intros Hc Ha. rewrite <- (Z_mod_plus_full a 1 c).
  rewrite Z.mod_small; lia.
Qed.

(** The distance from the current position to a position of the ring. *)
Lemma distance_zero c i j :
  0 <= i < c → 0 <= j < c → (i - j) mod c = 0 → i = j.
Proof.
  intros Hi Hj H. destruct (decide (j <= i)).
  - rewrite Z.mod_small in H by lia. lia.
  - rewrite mod_shift in H by lia. lia.
Qed.

Lemma distance_succ c i j :
  0 <= i < c → 0 <= j < c → 0 < (i - j) mod c →
  i ≠ j ∧ (i - (j + 1) mod c) mod c = (i - j) mod c - 1.
Proof.
  intros Hi Hj H. split.
  - intros ->. rewrite Z.sub_diag, Z.mod_0_l in H by lia. lia.
  - rewrite Zminus_mod_idemp_r.
    destruct (decide (j < i)).
    + rewrite !Z.mod_small by lia. lia.
    + destruct (decide (i = j)) as [->|].
      * rewrite Z.sub_diag, Z.mod_0_l in H by lia. lia.
      * rewrite !mod_shift by lia. lia.
Qed.

(** After as many ticks as the distance to position [i], the wheel is at
    [i], and the bucket there is the one that was there, untouched. *)
Lemma rotate_reaches nows w i m :
  wf w → 0 <= i < slotCount (wheel w) → bucket w i = Some m →
  Z.of_nat (length nows)
    = (i - CurrentIndex (wheel w)) mod slotCount (wheel w) →
  ∃ w', rotate nows w = Ok w' ∧ wf w' ∧
        CurrentIndex (wheel w') = i ∧ bucket w' i = Some m ∧
        slotCount (wheel w') = slotCount (wheel w) ∧
        CurrentStartTime (wheel w')
          = default (CurrentStartTime (wheel w)) (last nows) ∧
        ∀ x, m !! x = None →
             idSlotMap (wheel w) !! x = None →
             idSlotMap (wheel w') !! x = None.
Proof.
  revert w. induction nows as [|now rest IH]; intros w Hwf Hi Hb Hlen.
  - pose proof Hwf as (_ & _ & _ & Hci & _).
    simpl in Hlen. symmetry in Hlen. apply distance_zero in Hlen; [|done..].
    exists w. by split_and!.
  - pose proof Hwf as (_ & _ & _ & Hci & _).
    destruct (distance_succ _ i _ Hi Hci) as [Hne Hdist].
    { rewrite <- Hlen. simpl. lia. }
    destruct (step_buckets now w Hwf)
      as (w1 & detached & Hstep & Hwf1 & _ & _ & Hkeep & Hcount & _ & _ &
          Hci1 & Hstart1 & Hids1 & _).
    destruct (IH w1) as (w' & Hrot & Hwf' & Hci' & Hb' & Hcount' & Hstart' & Hids');
      [done|by rewrite Hcount|by rewrite Hkeep| |].
    { rewrite Hci1, Hcount, Hdist, <- Hlen. simpl. lia. }
    exists w'. simpl. rewrite Hstep. cbn [bind]. split_and!; try done.
    + congruence.
    + rewrite Hstart', Hstart1, last_cons. by destruct (last rest).
    + intros x Hm Hx. apply Hids'; [done|]. rewrite Hids1.
      by destruct (detached !! x).
Qed.

End StepOnBuckets.

Section Delivery.

Implicit Types (w : World) (data x : iface) (now : Time).

Lemma rotate_app nows1 nows2 w :
  rotate (nows1 ++ nows2) w
    = bind (rotate nows1 w) (rotate nows2).
Proof.
  revert w. induction nows1 as [|now rest IH]; intros w; simpl; [done|].
  destruct (step now w); simpl; [apply IH | done].
Qed.

(** The bucket at position [i], followed through the ticks that lead to
    [i] and the tick that retires it. *)
Lemma rotate_then_deliver nows now w i m :
  wf w → 0 <= i < slotCount (wheel w) → bucket w i = Some m →
  Z.of_nat (length nows)
    = (i - CurrentIndex (wheel w)) mod slotCount (wheel w) →
  ∃ w1 w2,
    rotate nows w = Ok w1 ∧ bucket w1 i = Some m ∧
    rotate (nows ++ [now]) w = Ok w2 ∧ wf w2 ∧
    last (delivered w2)
      = Some (default (CurrentStartTime (wheel w)) (last nows), Some m) ∧
    bucket w2 i = Some ∅ ∧
    ∀ x, is_Some (m !! x) → idSlotMap (wheel w2) !! x = None.
Proof.
  intros Hwf Hi Hb Hlen.
  destruct (rotate_reaches nows w i m Hwf Hi Hb Hlen)
    as (w1 & Hrot & Hwf1 & Hci1 & Hb1 & _ & Hstart1 & _).
  destruct (step_buckets now w1 Hwf1)
    as (w2 & detached & Hstep & Hwf2 & Hdet & Hempty & _ & _ & _ & _ & _ &
        _ & Hids & Hlast).
  rewrite Hci1, Hb1 in Hdet. injection Hdet as <-.
  exists w1, w2. split_and!; try done.
  - rewrite rotate_app, Hrot. simpl. by rewrite Hstep.
  - by rewrite Hlast, Hstart1.
  - by rewrite <- Hci1.
  - intros x [v Hx]. by rewrite Hids, Hx.
Qed.

(** X1. A bucket is delivered whole, at the tick that follows the wheel's
    arrival at its position: with [d] the distance from [CurrentIndex] to
    position [i] (mod [slotCount]), after [d] ticks the bucket at [i] still
    has the contents [m] it had, and tick [d + 1] calls the callback with
    the window start read at tick [d] ([CurrentStartTime] when [d = 0]) and
    a bucket holding exactly [m]; position [i] then holds an empty bucket
    and no identity of [m] is left in the identity index. *)
Theorem rotate_delivers_bucket nows now w i m :
  wf w → 0 <= i < slotCount (wheel w) → bucket w i = Some m →
  Z.of_nat (length nows)
    = (i - CurrentIndex (wheel w)) mod slotCount (wheel w) →
  ∃ w1 w2,
    rotate nows w = Ok w1 ∧ bucket w1 i = Some m ∧
    rotate (nows ++ [now]) w = Ok w2 ∧
    last (delivered w2)
      = Some (default (CurrentStartTime (wheel w)) (last nows), Some m) ∧
    bucket w2 i = Some ∅ ∧
    ∀ x, is_Some (m !! x) → idSlotMap (wheel w2) !! x = None.
Proof.
  intros Hwf Hi Hb Hlen.
  destruct (rotate_then_deliver nows now w i m Hwf Hi Hb Hlen)
    as (w1 & w2 & ? & ? & ? & _ & ? & ? & ?).
  by exists w1, w2.
Qed.

Lemma rotate_delivers_bucket_witness :
  ∃ w2, rotate [T0 + 1 * second; T0 + 2 * second; T0 + 3 * second;
                T0 + 4 * second] wheel10_a = Ok w2 ∧
        last (delivered w2)
          = Some (T0 + 3 * second, Some {[ IString "a" := true ]}) ∧
        idSlotMap (wheel w2) !! IString "a" = None.
Proof.
  destruct (rotate_delivers_bucket
              [T0 + 1 * second; T0 + 2 * second; T0 + 3 * second]
              (T0 + 4 * second) wheel10_a 3 {[ IString "a" := true ]})
    as (w1 & w2 & _ & _ & Hrot & Hlast & _ & Hids).
  - apply (bool_decide_unpack _). vm_compute. exact I.
  - apply (bool_decide_unpack _). vm_compute. exact I.
  - vm_compute. reflexivity.
  - vm_compute. reflexivity.
  - exists w2. split; [exact Hrot|]. split; [exact Hlast|].
    apply Hids. exists true. vm_compute. reflexivity.
Defined.


End Delivery.

Section DeliveryOfScheduled.

Implicit Types (w : World) (data x : iface) (now : Time).








End DeliveryOfScheduled.

Section Sequences.

Implicit Types (w : World) (data x : iface) (now : Time) (a : action).

Lemma after_epoch_representable tw at_ :
  after_epoch at_ → after_epoch (CurrentStartTime tw) → representable tw at_.
Proof.
  unfold after_epoch, representable, Int64.in_range, Int64.min_int,
    Int64.max_int. lia.
Qed.

Lemma ScheduleAt_returns at_ data w :
  wf w → representable (wheel w) at_ →
  ∃ e w', ScheduleAt at_ data w = Ok (e, w').
Proof.
  intros Hwf Hrep.
  pose proof (ScheduleAt_cases at_ data w Hwf Hrep) as Hc. cbv zeta in Hc.
  destruct (decide (at_ < CurrentStartTime (wheel w))); [by eexists _, _|].
  destruct (decide (_ >= slotCount (wheel w))); [by eexists _, _|].
  destruct Hc as (_ & _ & slot & m & _ & _ & Heq). rewrite Heq.
  case_decide; by eexists _, _.
Qed.

Lemma perform_wf a w w' : wf w → perform a w = Ok w' → wf w'.
Proof.
  intros Hwf. destruct a as [at_ data|now in_ data|data|now]; simpl.
  - destruct (ScheduleAt at_ data w) as [[e w1]|] eqn:H; [|done].
    intros [= <-]. by eapply ScheduleAt_wf.
  - unfold ScheduleIn.
    destruct (ScheduleAt (Add now in_) data w) as [[e w1]|] eqn:H; [|done].
    intros [= <-]. by eapply ScheduleAt_wf.
  - by apply Remove_wf.
  - by apply step_wf.
Qed.

Lemma perform_config a w w' :
  wf w → perform a w = Ok w' →
  maxSlotSize (wheel w') = maxSlotSize (wheel w) ∧
  slotCount (wheel w') = slotCount (wheel w) ∧
  tickTime (wheel w') = tickTime (wheel w).
Proof.
  intros Hwf. destruct a as [at_ data|now in_ data|data|now]; simpl.
  - destruct (ScheduleAt at_ data w) as [[e w1]|] eqn:H; [|done].
    intros [= <-]. apply ScheduleAt_frame in H as (s & ? & ? & ? & _). done.
  - unfold ScheduleIn.
    destruct (ScheduleAt (Add now in_) data w) as [[e w1]|] eqn:H; [|done].
    intros [= <-]. apply ScheduleAt_frame in H as (s & ? & ? & ? & _). done.
  - intros H. apply Remove_frame in H as (s & ? & ? & ? & _). done.
  - intros H.
    destruct (step_buckets now w Hwf)
      as (w1 & ? & Hstep & _ & _ & _ & _ & ? & ? & ? & _).
    rewrite Hstep in H. by injection H as <-.
Qed.

Lemma perform_safe a w :
  wf w → after_epoch (CurrentStartTime (wheel w)) → action_after_epoch a →
  ∃ w', perform a w = Ok w' ∧ after_epoch (CurrentStartTime (wheel w')).
Proof.
  intros Hwf Hstart Ha.
  destruct a as [at_ data|now in_ data|data|now]; simpl in *.
  - destruct (ScheduleAt_returns at_ data w Hwf) as (e & w' & H).
    { by apply after_epoch_representable. }
    exists w'. rewrite H. split; [done|].
    apply ScheduleAt_frame in H as (s & _ & _ & _ & _ & -> & _). done.
  - unfold ScheduleIn.
    destruct (ScheduleAt_returns (Add now in_) data w Hwf) as (e & w' & H).
    { by apply after_epoch_representable. }
    exists w'. rewrite H. split; [done|].
    apply ScheduleAt_frame in H as (s & _ & _ & _ & _ & -> & _). done.
  - destruct (idSlotMap (wheel w) !! data) as [index|] eqn:Hx.
    + destruct (Remove_present data w index Hwf Hx)
        as (slot & m & _ & _ & Heq).
      eexists. split; [exact Heq|]. done.
    + exists w. split; [by apply Remove_absent | done].
  - destruct (step_buckets now w Hwf)
      as (w' & ? & Hstep & _ & _ & _ & _ & _ & _ & _ & _ & Hnow & _).
    exists w'. by rewrite Hnow.
Qed.

(** X4. No panic on a started wheel: on a wheel that satisfies the
    invariant, with every instant (the window start, the targets of
    [ScheduleAt] and [ScheduleIn], the readings of the ticks) between the
    Unix epoch and the last [int64] nanosecond, every sequence of
    [ScheduleAt], [ScheduleIn], [Remove] and rotation steps returns, and
    the invariant holds at the end. *)
Theorem perform_all_never_panics acts w :
  wf w → after_epoch (CurrentStartTime (wheel w)) →
  Forall action_after_epoch acts →
  ∃ w', perform_all acts w = Ok w' ∧ wf w' ∧
        after_epoch (CurrentStartTime (wheel w')).
Proof.
  intros Hwf Hstart Hacts. revert w Hwf Hstart.
  induction Hacts as [|a acts Ha _ IH]; intros w Hwf Hstart; simpl.
  - by exists w.
  - destruct (perform_safe a w Hwf Hstart Ha) as (w1 & Hp & Hstart1).
    rewrite Hp. cbn [bind]. apply IH; [|done]. by eapply perform_wf.
Qed.

Lemma perform_all_never_panics_witness :
  ∃ w', perform_all busy_day (wheel10 0) = Ok w' ∧ wf w'.
Proof.
  destruct (perform_all_never_panics busy_day (wheel10 0))
    as (w' & Hret & Hwf & _).
  - apply (bool_decide_unpack _). vm_compute. exact I.
  - apply (bool_decide_unpack _). vm_compute. exact I.
  - apply (bool_decide_unpack _). vm_compute. exact I.
  - exists w'. split; [exact Hret | exact Hwf].
Defined.

Lemma perform_within_capacity a w w' :
  wf w → within_capacity w → perform a w = Ok w' → within_capacity w'.
Proof.
  intros Hwf Hcap Hp.
  destruct (perform_config a w w' Hwf Hp) as (Hmax & _).
  intros Hpos i m' Hb. rewrite Hmax in *.
  specialize (Hcap Hpos).
  assert (∀ at_ data e, ScheduleAt at_ data w = Ok (e, w') →
            Z.of_nat (size m') <= maxSlotSize (wheel w) + 1) as Hsched.
  { intros at_ data [e|] H.
    { apply ScheduleAt_error_unchanged in H as ->. by eapply Hcap. }
    apply ScheduleAt_success_inv in H
      as (? & index & slot & m & _ & _ & _ & _ & Hslot & Hm & Hfull & ->).
    apply bucket_Some in Hb as (Hi & s & Hs & Hms). simpl in *.
    destruct (decide (slot = s)) as [->|Hne].
    - rewrite lookup_insert_eq in Hms. injection Hms as <-.
      rewrite map_size_insert. destruct (m !! data); simpl; lia.
    - rewrite lookup_insert_ne in Hms by done.
      apply (Hcap i). apply bucket_Some. split; [done|]. by exists s. }
  destruct a as [at_ data|now in_ data|data|now]; simpl in Hp.
  - destruct (ScheduleAt at_ data w) as [[e w1]|] eqn:H; [|done].
    injection Hp as ->. by eapply Hsched.
  - unfold ScheduleIn in Hp.
    destruct (ScheduleAt (Add now in_) data w) as [[e w1]|] eqn:H; [|done].
    injection Hp as ->. by eapply Hsched.
  - apply Remove_inv in Hp as [->|(index & slot & m & _ & Hslot & Hm & ->)].
    { by eapply Hcap. }
    apply bucket_Some in Hb as (Hi & s & Hs & Hms). simpl in *.
    destruct (decide (slot = s)) as [->|Hne].
    + rewrite lookup_insert_eq in Hms. injection Hms as <-.
      assert (Z.of_nat (size m) <= maxSlotSize (wheel w) + 1).
      { apply (Hcap i). apply bucket_Some. split; [done|]. by exists s. }
      rewrite map_size_delete. destruct (m !! IInt index); simpl; lia.
    + rewrite lookup_insert_ne in Hms by done.
      apply (Hcap i). apply bucket_Some. split; [done|]. by exists s.
  - destruct (step_buckets now w Hwf)
      as (w1 & ? & Hstep & _ & _ & Hempty & Hkeep & _).
    rewrite Hstep in Hp. injection Hp as <-.
    destruct (decide (i = CurrentIndex (wheel w))) as [->|Hne].
    + rewrite Hempty in Hb. injection Hb as <-.
      rewrite map_size_empty. lia.
    + rewrite Hkeep in Hb by done. by eapply Hcap.
Qed.

Lemma perform_all_within_capacity acts w w' :
  wf w → within_capacity w → perform_all acts w = Ok w' →
  within_capacity w' ∧ maxSlotSize (wheel w') = maxSlotSize (wheel w).
Proof.
  revert w. induction acts as [|a acts IH]; intros w Hwf Hcap; simpl.
  - by intros [= <-].
  - destruct (perform a w) as [w1|] eqn:Hp; [|done]. cbn [bind]. intros H.
    destruct (perform_config a w w1 Hwf Hp) as (Hmax & _).
    rewrite <- Hmax. apply IH; [by eapply perform_wf| |done].
    by eapply perform_within_capacity.
Qed.

(** X5. A bucket never holds more than [maxSlotSize + 1] identities: on a
    wheel made by [New] with [maxSlotSize > 0] and started, after any
    sequence of [ScheduleAt], [ScheduleIn], [Remove] and rotation steps
    that returns, every bucket of the ring holds at most [maxSlotSize + 1]
    identities. *)
Theorem bucket_size_bound tick count maxSize h log now acts w' :
  0 < tick → 0 < count → 8 * count <= maxAlloc → maxSize > 0 →
  lifetime tick count maxSize h log now acts = Ok w' →
  ∀ i m, bucket w' i = Some m → Z.of_nat (size m) <= maxSize + 1.
Proof.
  intros Htick Hcount Halloc Hmax. unfold lifetime.
  destruct (New_Start_wf tick count maxSize h log now Htick Hcount Halloc)
    as (w0 & w & HNew & HStart & Hwf & _ & _ & _ & Hempty).
  rewrite HNew. cbn [bind]. rewrite HStart. cbn [bind]. intros H.
  assert (maxSlotSize (wheel w) = maxSize) as Hm.
  { unfold New in HNew. case_decide; [done|].
    destruct (fill_slots _ _). injection HNew as <-.
    unfold Start in HStart. simpl in HStart. case_decide; [done|].
    by injection HStart as <-. }
  assert (within_capacity w) as Hcap.
  { intros _ i m Hb. pose proof Hwf as (_ & Hlen & _).
    pose proof Hb as (Hi & s & Hs & _)%bucket_Some.
    apply lookup_lt_Some in Hs.
    assert (slotCount (wheel w) = count) as Hc.
    { unfold New in HNew. case_decide; [done|].
      destruct (fill_slots _ _). injection HNew as <-.
      unfold Start in HStart. simpl in HStart. case_decide; [done|].
      by injection HStart as <-. }
    rewrite Hempty in Hb by lia. injection Hb as <-.
    rewrite map_size_empty. lia. }
  destruct (perform_all_within_capacity acts w w' Hwf Hcap H) as [Hcap' Hm'].
  intros i m Hb. rewrite <- Hm, <- Hm'. apply (Hcap' ltac:(lia) i m Hb).
Qed.

Lemma bucket_size_bound_witness :
  ∃ w' m, lifetime second 10 1 ∅ [] T0 three_into_bucket_3 = Ok w' ∧
          bucket w' 3 = Some m ∧ (size m = 2)%nat ∧
          Z.of_nat (size m) <= 1 + 1.
Proof.
  pose (w' := run (lifetime second 10 1 ∅ [] T0 three_into_bucket_3)
                  empty_world).
  pose (m := default ∅ (bucket w' 3)).
  exists w', m.
  assert (lifetime second 10 1 ∅ [] T0 three_into_bucket_3 = Ok w') as Hl
    by (vm_compute; reflexivity).
  assert (bucket w' 3 = Some m) as Hb by (vm_compute; reflexivity).
  split; [exact Hl|]. split; [exact Hb|].
  split; [vm_compute; reflexivity|].
  refine (bucket_size_bound second 10 1 ∅ [] T0 three_into_bucket_3 w'
            _ _ _ _ Hl 3 m Hb);
    [unfold second; lia | lia | unfold maxAlloc; lia | lia].
Defined.

End Sequences.

Section IndexAndBuckets.

Implicit Types (w : World) (data x : iface) (now : Time) (a : action).

Lemma perform_index_truthful a w w' :
  wf w → index_truthful w → ¬ is_Remove a → perform a w = Ok w' →
  index_truthful w'.
Proof.
  intros Hwf Htrue Ha Hp.
  assert (∀ at_ data e, ScheduleAt at_ data w = Ok (e, w') →
            index_truthful w') as Hsched.
  { intros at_ data [e|] H.
    { by apply ScheduleAt_error_unchanged in H as ->. }
    apply ScheduleAt_success_inv in H
      as (? & index & slot & m & _ & _ & _ & _ & Hslot & Hm & _ & ->).
    apply slice_get_Ok in Hslot as [Hindex Hslot].
    intros y j Hy. simpl in Hy.
    destruct (decide (data = y)) as [->|Hne].
    - rewrite lookup_insert_eq in Hy. injection Hy as <-.
      exists (<[y:=true]> m). split.
      + apply bucket_Some. split; [done|]. exists slot. simpl.
        by rewrite lookup_insert_eq.
      + rewrite lookup_insert_eq. by eexists.
    - rewrite lookup_insert_ne in Hy by done.
      destruct (Htrue y j Hy) as (mj & (Hj & s & Hs & Hms)%bucket_Some & Hin).
      destruct (decide (slot = s)) as [->|Hns].
      + exists (<[data:=true]> m). split.
        * apply bucket_Some. split; [done|]. exists s. simpl.
          by rewrite lookup_insert_eq.
        * rewrite lookup_insert_ne by done. congruence.
      + exists mj. split; [|done].
        apply bucket_Some. split; [done|]. exists s. simpl.
        by rewrite lookup_insert_ne. }
  destruct a as [at_ data|now in_ data|data|now]; simpl in Hp.
  - destruct (ScheduleAt at_ data w) as [[e w1]|] eqn:H; [|done].
    injection Hp as ->. by eapply Hsched.
  - unfold ScheduleIn in Hp.
    destruct (ScheduleAt (Add now in_) data w) as [[e w1]|] eqn:H; [|done].
    injection Hp as ->. by eapply Hsched.
  - by destruct Ha.
  - destruct (step_buckets now w Hwf)
      as (w1 & detached & Hstep & _ & Hdet & _ & Hkeep & _ & _ & _ & _ & _ &
          Hids & _).
    rewrite Hstep in Hp. injection Hp as <-.
    intros y j Hy. rewrite Hids in Hy.
    destruct (detached !! y) eqn:Hyd; [done|].
    destruct (Htrue y j Hy) as (mj & Hbj & Hin).
    destruct (decide (j = CurrentIndex (wheel w))) as [->|Hne].
    + rewrite Hdet in Hbj. injection Hbj as <-.
      rewrite Hyd in Hin. by destruct Hin.
    + exists mj. by rewrite Hkeep.
Qed.

(** X6. Without [Remove] the identity index tells the truth: on a wheel
    made by [New] and started, after any sequence of [ScheduleAt],
    [ScheduleIn] and rotation steps that returns, every entry [x -> i] of
    the identity index names a bucket [i] that holds [x]. *)
Theorem index_truthful_without_Remove tick count maxSize h log now acts w' :
  0 < tick → 0 < count → 8 * count <= maxAlloc →
  Forall (λ a, ¬ is_Remove a) acts →
  lifetime tick count maxSize h log now acts = Ok w' →
  ∀ x i, idSlotMap (wheel w') !! x = Some i →
         ∃ m, bucket w' i = Some m ∧ is_Some (m !! x).
Proof.
  intros Htick Hcount Halloc Hacts. unfold lifetime.
  destruct (New_Start_wf tick count maxSize h log now Htick Hcount Halloc)
    as (w0 & w & HNew & HStart & Hwf & _ & _ & Hids & _).
  rewrite HNew. cbn [bind]. rewrite HStart. cbn [bind].
  assert (index_truthful w) as Htrue.
  { intros x i Hx. by rewrite Hids, lookup_empty in Hx. }
  clear HNew HStart Hids. revert w Hwf Htrue.
  induction Hacts as [|a acts Ha _ IH]; intros w Hwf Htrue; simpl.
  - by intros [= <-].
  - destruct (perform a w) as [w1|] eqn:Hp; [|done]. cbn [bind].
    apply IH; [by eapply perform_wf | by eapply perform_index_truthful].
Qed.

Lemma index_truthful_without_Remove_witness :
  ∃ w' m, lifetime second 10 1 ∅ [] T0 three_into_bucket_3 = Ok w' ∧
          idSlotMap (wheel w') !! key 1 = Some 3 ∧
          bucket w' 3 = Some m ∧ is_Some (m !! key 1).
Proof.
  pose (w' := run (lifetime second 10 1 ∅ [] T0 three_into_bucket_3)
                  empty_world).
  assert (lifetime second 10 1 ∅ [] T0 three_into_bucket_3 = Ok w') as Hl
    by (vm_compute; reflexivity).
  assert (idSlotMap (wheel w') !! key 1 = Some 3) as Hx
    by (vm_compute; reflexivity).
  destruct (index_truthful_without_Remove second 10 1 ∅ [] T0
              three_into_bucket_3 w') with (x := key 1) (i := 3)
    as (m & Hb & Hin);
    [unfold second; lia | lia | unfold maxAlloc; lia
    | apply (bool_decide_unpack _); vm_compute; exact I
    | exact Hl | exact Hx |].
  exists w', m. split; [exact Hl|]. split; [exact Hx|].
  split; [exact Hb | exact Hin].
Defined.

Lemma in_no_bucket_Forall x w :
  Forall (λ s, heap w !! s ≫= (λ m, m !! x) = None) (slots (wheel w)) →
  in_no_bucket x w.
Proof.
  rewrite Forall_lookup. intros Hall i m (_ & s & Hs & Hm)%bucket_Some.
  specialize (Hall _ _ Hs). by rewrite Hm in Hall.
Qed.

(** X7. The rotation never purges a stale entry of the identity index: an
    entry [x -> i] whose identity is in no bucket of the ring (as after a
    [Remove] that did delete it) is still in the identity index, with [x]
    still in no bucket, after any number of ticks. *)
Theorem stale_entry_survives_rotation nows w x i :
  wf w → idSlotMap (wheel w) !! x = Some i →
  (∀ j m, bucket w j = Some m → m !! x = None) →
  ∃ w', rotate nows w = Ok w' ∧
        idSlotMap (wheel w') !! x = Some i ∧
        ∀ j m, bucket w' j = Some m → m !! x = None.
Proof.
  revert w. induction nows as [|now rest IH]; intros w Hwf Hx Hout; simpl.
  - by exists w.
  - destruct (step_buckets now w Hwf)
      as (w1 & detached & Hstep & Hwf1 & Hdet & Hempty & Hkeep & _ & _ & _ &
          _ & _ & Hids & _).
    rewrite Hstep. cbn [bind]. apply IH; [done| |].
    + rewrite Hids. by rewrite (Hout _ _ Hdet).
    + intros j m Hb.
      destruct (decide (j = CurrentIndex (wheel w))) as [->|Hne].
      * rewrite Hempty in Hb. by injection Hb as <-.
      * rewrite Hkeep in Hb by done. by eapply Hout.
Qed.

Lemma stale_entry_survives_rotation_witness :
  ∃ w', rotate (exact_ticks T0 second 25) wheel10_cancelled_3 = Ok w' ∧
        idSlotMap (wheel w') !! IInt 3 = Some 3.
Proof.
  destruct (stale_entry_survives_rotation (exact_ticks T0 second 25)
              wheel10_cancelled_3 (IInt 3) 3)
    as (w' & Hrot & Hx & _).
  - apply (bool_decide_unpack _). vm_compute. exact I.
  - vm_compute. reflexivity.
  - apply in_no_bucket_Forall.
    apply (bool_decide_unpack _). vm_compute. exact I.
  - exists w'. split; [exact Hrot | exact Hx].
Defined.

(** X8. What [Remove] does, exactly: for [x] mapped to [index] by the
    identity index of a wheel that satisfies the invariant, [Remove(x)]
    returns; the bucket at [index] loses the key that is the [int]
    [index] and nothing else, so [x] stays in it unless [x] is that
    [int]; every other bucket and the identity index are unchanged. *)
Theorem Remove_deletes_the_position_key x w index :
  wf w → idSlotMap (wheel w) !! x = Some index →
  ∃ w' m,
    Remove x w = Ok w' ∧
    bucket w index = Some m ∧
    bucket w' index = Some (delete (IInt index) m) ∧
    (x ≠ IInt index → delete (IInt index) m !! x = m !! x) ∧
    (∀ j, j ≠ index → bucket w' j = bucket w j) ∧
    idSlotMap (wheel w') = idSlotMap (wheel w).
Proof.
  intros Hwf Hx.
  destruct (Remove_present x w index Hwf Hx) as (slot & m & Hslot & Hm & Heq).
  pose proof Hwf as (_ & _ & _ & _ & Hnd & _).
  apply slice_get_Ok in Hslot as [Hindex Hslot].
  eexists _, m. split; [exact Heq|]. split_and!.
  - apply bucket_Some. split; [done|]. by exists slot.
  - apply bucket_Some. split; [done|]. exists slot. simpl.
    by rewrite lookup_insert_eq.
  - intros Hne. by rewrite lookup_delete_ne.
  - intros j Hj. unfold bucket; simpl.
    destruct (decide (0 <= j)); [|done].
    destruct (slots (wheel w) !! Z.to_nat j) as [s|] eqn:Hs; [|done].
    rewrite lookup_insert_ne; [done|]. intros <-.
    pose proof (NoDup_lookup _ _ _ _ Hnd Hslot Hs). lia.
  - done.
Qed.

Lemma Remove_deletes_the_position_key_witness :
  ∃ w', Remove (IString "a") wheel10_a = Ok w' ∧
        bucket w' 3 = Some {[ IString "a" := true ]}.
Proof.
  destruct (Remove_deletes_the_position_key (IString "a") wheel10_a 3)
    as (w' & m & Hret & Hm & Hb & _).
  - apply (bool_decide_unpack _). vm_compute. exact I.
  - vm_compute. reflexivity.
  - exists w'. split; [exact Hret|]. rewrite Hb. f_equal.
    assert (m = {[ IString "a" := true ]}) as ->.
    { assert (bucket wheel10_a 3 = Some {[ IString "a" := true ]}) as Hc
        by (vm_compute; reflexivity).
      rewrite Hc in Hm. by injection Hm as <-. }
    vm_compute. reflexivity.
Defined.

(** X9. Cancelling twice is the same as cancelling once: when [Remove(x)]
    returns the world [w'], [Remove(x)] on [w'] returns [w'] again. *)
Theorem Remove_twice data w w' :
  Remove data w = Ok w' → Remove data w' = Ok w'.
Proof.
  intros H.
  destruct (Remove_inv _ _ _ H)
    as [->|(index & slot & m & Hx & Hslot & Hm & ->)]; [exact H|].
  unfold Remove; simpl. rewrite Hx, Hslot. cbn [bind].
  unfold deref. rewrite lookup_insert_eq. cbn [bind].
  by rewrite insert_insert_eq, delete_delete_eq.
Qed.

Lemma Remove_twice_witness :
  Remove (IInt 3) wheel10_cancelled_3 = Ok wheel10_cancelled_3.
Proof.
  apply (Remove_twice (IInt 3)
           (run (perform (DoScheduleAt (T0 + 3 * second) (IInt 3)) (wheel10 0))
                empty_world)).
  vm_compute. reflexivity.
Defined.

End IndexAndBuckets.

Section Outcomes.

Implicit Types (w : World) (data x : iface) (now : Time).






(** X12. A wheel with no slot: [New] accepts [slotCount = 0] and [Start]
    starts the wheel, but no [ScheduleAt] ever returns [nil] on it, and the
    first rotation step panics (index out of range). *)
Theorem wheel_without_slots tick maxSize h log now0 :
  0 < tick →
  ∃ w0 w,
    New tick 0 maxSize h log = Ok w0 ∧ Start now0 w0 = Ok w ∧
    (∀ at_ data w', ScheduleAt at_ data w ≠ Ok (None, w')) ∧
    (∀ now, step now w = Panic).
Proof.
  intros Htick. unfold New.
  destruct (decide (0 < 0 ∨ maxAlloc < 8 * 0)) as [[?|?]|_];
    [lia | unfold maxAlloc in *; lia |].
  simpl. eexists _, _. split; [done|]. unfold Start; simpl.
  destruct (decide (tick <= 0)); [lia|]. split; [done|]. split.
  - intros at_ data w'. unfold ScheduleAt, bind, go_rem; simpl.
    intros H. repeat case_match; simplify_eq.
  - intros now. done.
Qed.

Lemma wheel_without_slots_witness :
  step (T0 + 1 * second) wheel0 = Panic.
Proof.
  destruct (wheel_without_slots second 0 ∅ [] T0) as (w0 & w & H0 & H1 & _ & Hp).
  - unfold second. lia.
  - assert (wheel0 = w) as ->; [|apply Hp].
    unfold wheel0. rewrite H0. cbn [bind]. rewrite H1. reflexivity.
Defined.

(** X13. What [New] and [Start] build: for [tickTime > 0] and
    [0 < slotCount] within what the runtime allocates, [New] then [Start]
    return a wheel that satisfies the invariant, with the configuration
    given, [CurrentIndex = 0], [CurrentStartTime = now], an empty identity
    index, [slotCount] empty buckets at addresses that were free, the
    callback not yet called, and every [SyncBoolMap] that existed before
    untouched. *)
Theorem New_then_Start tick count maxSize h log now :
  0 < tick → 0 < count → 8 * count <= maxAlloc →
  ∃ w0 w,
    New tick count maxSize h log = Ok w0 ∧ Start now w0 = Ok w ∧ wf w ∧
    tickTime (wheel w) = tick ∧ slotCount (wheel w) = count ∧
    maxSlotSize (wheel w) = maxSize ∧
    CurrentIndex (wheel w) = 0 ∧ CurrentStartTime (wheel w) = now ∧
    idSlotMap (wheel w) = ∅ ∧ calls w = log ∧
    (∀ i, 0 <= i < count → bucket w i = Some ∅) ∧
    Forall (λ s, h !! s = None) (slots (wheel w)) ∧
    (∀ s v, h !! s = Some v → heap w !! s = Some v).
Proof.
  intros Htick Hcount Halloc.
  destruct (New_Start_wf tick count maxSize h log now Htick Hcount Halloc)
    as (w0 & w & HNew & HStart & Hwf & Hci & Hstart & Hids & Hempty).
  exists w0, w. split; [done|]. split; [done|]. split; [done|].
  unfold New in HNew. case_decide; [done|].
  destruct (fill_slots (Z.to_nat count) h) as [ls h'] eqn:E.
  destruct (fill_slots_spec _ _ _ _ E) as (_ & _ & Hall & Hkeep).
  injection HNew as <-.
  unfold Start in HStart. simpl in HStart. case_decide; [done|].
  injection HStart as <-. simpl in *. split_and!; try done.
  eapply Forall_impl; [exact Hall|]. by intros s [? _].
Qed.

Lemma New_then_Start_witness :
  wf (wheel10 0) ∧ bucket (wheel10 0) 7 = Some ∅.
Proof.
  destruct (New_then_Start second 10 0 ∅ [] T0)
    as (w0 & w & H0 & H1 & Hwf & _ & _ & _ & _ & _ & _ & _ & Hb & _).
  - unfold second. lia.
  - lia.
  - unfold maxAlloc. lia.
  - assert (wheel10 0 = w) as ->.
    { unfold wheel10. rewrite H0. cbn [bind]. rewrite H1. reflexivity. }
    split; [exact Hwf | apply Hb; lia].
Defined.

End Outcomes.

Section CallbackLog.

Implicit Types (w : World) (data x : iface) (now : Time) (a : action).

Lemma rotate_perform_all nows w :
  rotate nows w = perform_all (DoTick <$> nows) w.
Proof.
  revert w. induction nows as [|now rest IH]; intros w; simpl; [done|].
  destruct (step now w); simpl; [apply IH | done].
Qed.

Lemma list_insert_elem_of {A : Type} (l : list A) (i : nat) (u v : A) :
  v ∈ <[i:=u]> l → v = u ∨ v ∈ l.
Proof.
  intros (j & Hj)%list_elem_of_lookup.
  apply list_lookup_insert_Some in Hj as [(_ & -> & _)|[_ Hj]].
  - by left.
  - right. by eapply list_elem_of_lookup_2.
Qed.

(** What one action does to the callback log and to the [SyncBoolMap]s
    that are not in the ring. *)
Lemma perform_log a w w' :
  wf w → perform a w = Ok w' →
  (∃ new, calls w' = calls w ++ new ∧
          length new = length (filter is_Tick [a])) ∧
  (∀ s v, heap w !! s = Some v → s ∉ slots (wheel w) →
          heap w' !! s = Some v ∧ s ∉ slots (wheel w')).
Proof.
  intros Hwf Hp.
  assert (∀ at_ data e, ScheduleAt at_ data w = Ok (e, w') →
    (∃ new, calls w' = calls w ++ new ∧ length new = 0%nat) ∧
    (∀ s v, heap w !! s = Some v → s ∉ slots (wheel w) →
            heap w' !! s = Some v ∧ s ∉ slots (wheel w'))) as Hsched.
  { intros at_ data [e|] H.
    { apply ScheduleAt_error_unchanged in H as ->.
      split; [exists []; by rewrite app_nil_r | done]. }
    apply ScheduleAt_success_inv in H
      as (? & index & slot & m & _ & _ & _ & _ & Hslot & Hm & _ & ->).
    apply slice_get_Ok in Hslot as [_ Hslot]. simpl.
    split; [exists []; by rewrite app_nil_r |].
    intros s v Hs Hout. split; [|done].
    rewrite lookup_insert_ne; [done|]. intros <-.
    apply Hout. by eapply list_elem_of_lookup_2. }
  destruct a as [at_ data|now in_ data|data|now]; simpl in Hp.
  - destruct (ScheduleAt at_ data w) as [[e w1]|] eqn:H; [|done].
    injection Hp as ->. by eapply Hsched.
  - unfold ScheduleIn in Hp.
    destruct (ScheduleAt (Add now in_) data w) as [[e w1]|] eqn:H; [|done].
    injection Hp as ->. by eapply Hsched.
  - apply Remove_inv in Hp as [->|(index & slot & m & _ & Hslot & Hm & ->)].
    { split; [exists []; by rewrite app_nil_r | done]. }
    apply slice_get_Ok in Hslot as [_ Hslot]. simpl.
    split; [exists []; by rewrite app_nil_r |].
    intros s v Hs Hout. split; [|done].
    rewrite lookup_insert_ne; [done|]. intros <-.
    apply Hout. by eapply list_elem_of_lookup_2.
  - destruct (step_cases now w Hwf) as (expired & detached & _ & _ & Heq).
    rewrite Heq in Hp. injection Hp as <-. simpl.
    pose proof (alloc_fresh (heap w)) as Hfresh. simpl in Hfresh.
    split; [by eexists|].
    intros s v Hs Hout.
    assert (s ≠ fresh (dom (heap w))) as Hne by (intros ->; congruence).
    split; [by rewrite lookup_insert_ne|].
    intros [->|Hin]%list_insert_elem_of; done.
Qed.

Lemma perform_all_log acts w w' :
  wf w → perform_all acts w = Ok w' →
  (∃ new, calls w' = calls w ++ new ∧
          length new = length (filter is_Tick acts)) ∧
  (∀ s v, heap w !! s = Some v → s ∉ slots (wheel w) →
          heap w' !! s = Some v ∧ s ∉ slots (wheel w')).
Proof.
  revert w. induction acts as [|a acts IH]; intros w Hwf; simpl.
  - intros [= <-]. split; [exists []; by rewrite app_nil_r | done].
  - destruct (perform a w) as [w1|] eqn:Hp; [|done]. cbn [bind]. intros H.
    destruct (perform_log a w w1 Hwf Hp) as [(new1 & Hc1 & Hl1) Hfrozen1].
    destruct (IH w1 (perform_wf _ _ _ Hwf Hp) H)
      as [(new2 & Hc2 & Hl2) Hfrozen2].
    split.
    + exists (new1 ++ new2). rewrite Hc2, Hc1, <- app_assoc. split; [done|].
      rewrite length_app, Hl1, Hl2.
      change (a :: acts) with ([a] ++ acts).
      by rewrite filter_app, length_app.
    + intros s v Hs Hout. destruct (Hfrozen1 s v Hs Hout) as [Hs1 Hout1].
      by apply Hfrozen2.
Qed.

(** X14. The callback is called once per tick and by nothing else: after
    any sequence of [ScheduleAt], [ScheduleIn], [Remove] and rotation steps
    that returns, on a wheel that satisfies the invariant, the log of the
    callback's calls is the log before followed by as many calls as the
    sequence has ticks. *)
Theorem callback_once_per_tick acts w w' :
  wf w → perform_all acts w = Ok w' →
  ∃ new, calls w' = calls w ++ new ∧
         length new = length (filter is_Tick acts).
Proof.
  intros Hwf H. by destruct (perform_all_log acts w w' Hwf H) as [? _].
Qed.

Lemma callback_once_per_tick_witness :
  ∃ w' new, perform_all busy_day (wheel10 0) = Ok w' ∧
            calls w' = [] ++ new ∧ length new = 2%nat.
Proof.
  pose (w' := run (perform_all busy_day (wheel10 0)) empty_world).
  assert (perform_all busy_day (wheel10 0) = Ok w') as H
    by (vm_compute; reflexivity).
  destruct (callback_once_per_tick busy_day (wheel10 0) w')
    as (new & Hc & Hl).
  - apply (bool_decide_unpack _). vm_compute. exact I.
  - exact H.
  - exists w', new. split; [exact H|]. split; [exact Hc | exact Hl].
Defined.

(** X15. The bucket handed to the callback is frozen: when a rotation
    step has called the callback with the bucket at address [s], no later
    [ScheduleAt], [ScheduleIn], [Remove] or rotation step changes the
    contents at [s], and [s] never comes back into the ring. *)
Theorem delivered_bucket_is_frozen now acts w w1 w' t s :
  wf w → step now w = Ok w1 → last (calls w1) = Some (t, s) →
  perform_all acts w1 = Ok w' →
  heap w' !! s = heap w1 !! s ∧ is_Some (heap w1 !! s) ∧
  s ∉ slots (wheel w').
Proof.
  intros Hwf Hstep Hlast H.
  pose proof (step_wf _ _ _ Hwf Hstep) as Hwf1.
  destruct (step_cases now w Hwf) as (expired & detached & Hslot & Hm & Heq).
  rewrite Heq in Hstep. injection Hstep as <-.
  simpl in Hlast. rewrite last_snoc in Hlast. injection Hlast as <- <-.
  pose proof Hwf as (_ & Hlen & _ & Hci & Hnd & _).
  pose proof (alloc_fresh (heap w)) as Hfresh. simpl in Hfresh.
  assert (expired ≠ fresh (dom (heap w))) as Hne by (intros ->; congruence).
  destruct (perform_all_log acts _ w' Hwf1 H) as [_ Hfrozen].
  destruct (Hfrozen expired detached) as [Hs Hout]; simpl.
  - by rewrite lookup_insert_ne.
  - intros (j & Hj)%list_elem_of_lookup.
    apply list_lookup_insert_Some in Hj as [(_ & ? & _)|[Hij Hj]]; [done|].
    pose proof (NoDup_lookup _ _ _ _ Hnd Hslot Hj). lia.
  - simpl. rewrite lookup_insert_ne by done. rewrite Hs, Hm.
    split_and!; [done | by eexists | done].
Qed.

Lemma delivered_bucket_is_frozen_witness :
  ∃ w1 w' s,
    step (T0 + 4 * second) wheel10_a3 = Ok w1 ∧
    last (calls w1) = Some (T0 + 3 * second, s) ∧
    perform_all [DoScheduleAt (T0 + 4 * second) (IString "a");
                 DoRemove (IString "a");
                 DoTick (T0 + 5 * second)] w1 = Ok w' ∧
    heap w' !! s = heap w1 !! s.
Proof.
  pose (w1 := run (step (T0 + 4 * second) wheel10_a3) empty_world).
  pose (acts := [DoScheduleAt (T0 + 4 * second) (IString "a");
                 DoRemove (IString "a");
                 DoTick (T0 + 5 * second)]).
  pose (w' := run (perform_all acts w1) empty_world).
  assert (step (T0 + 4 * second) wheel10_a3 = Ok w1) as Hstep
    by (vm_compute; reflexivity).
  assert (last (calls w1) = Some (T0 + 3 * second, 4%positive)) as Hlast
    by (vm_compute; reflexivity).
  assert (perform_all acts w1 = Ok w') as H by (vm_compute; reflexivity).
  destruct (delivered_bucket_is_frozen (T0 + 4 * second) acts wheel10_a3
              w1 w' (T0 + 3 * second) 4%positive) as (Hsame & _ & _).
  - apply (bool_decide_unpack _). vm_compute. exact I.
  - exact Hstep.
  - exact Hlast.
  - exact H.
  - exists w1, w', 4%positive. split; [exact Hstep|]. split; [exact Hlast|].
    split; [exact H | exact Hsame].
Defined.

(** X16. No second delivery: an identity that is in no bucket of the ring
    (as after the delivery of the only bucket that held it) is in none of
    the buckets that later ticks hand to the callback. *)
Theorem no_later_delivery nows w w' x :
  wf w → (∀ j m, bucket w j = Some m → m !! x = None) →
  rotate nows w = Ok w' →
  Forall (λ c, ∃ m, c.2 = Some m ∧ m !! x = None)
         (drop (length (calls w)) (delivered w')).
Proof.
  revert w. induction nows as [|now rest IH]; intros w Hwf Hout; simpl.
  - intros [= <-]. unfold delivered.
    rewrite drop_ge; [constructor|]. by rewrite length_fmap.
  - destruct (step now w) as [w1|] eqn:Hstep; [|done]. cbn [bind].
    intros Hrot.
    pose proof (step_wf _ _ _ Hwf Hstep) as Hwf1.
    destruct (step_buckets now w Hwf)
      as (w1' & detached & Hstep' & _ & Hdet & Hempty & Hkeep & _).
    rewrite Hstep in Hstep'. injection Hstep' as <-.
    assert (∀ j m, bucket w1 j = Some m → m !! x = None) as Hout1.
    { intros j m Hb.
      destruct (decide (j = CurrentIndex (wheel w))) as [->|Hne].
      - rewrite Hempty in Hb. by injection Hb as <-.
      - rewrite Hkeep in Hb by done. by eapply Hout. }
    specialize (IH w1 Hwf1 Hout1 Hrot).
    destruct (step_cases now w Hwf) as (expired & detached' & Hslot & Hm & Heq).
    rewrite Heq in Hstep. injection Hstep as Hw1.
    assert (bucket w (CurrentIndex (wheel w)) = Some detached') as Hdet'.
    { pose proof Hwf as (_ & _ & _ & Hci & _).
      apply bucket_Some. split; [lia|]. by exists expired. }
    rewrite Hdet in Hdet'. injection Hdet' as <-.
    assert (calls w1 = calls w ++ [(CurrentStartTime (wheel w), expired)])
      as Hcalls by (by rewrite <- Hw1).
    rewrite rotate_perform_all in Hrot.
    destruct (perform_all_log _ w1 w' Hwf1 Hrot) as [(new & Hc & _) Hfrozen].
    destruct (Hfrozen expired detached) as [Hexp _].
    { rewrite <- Hw1. simpl. rewrite lookup_insert_ne; [done|].
      pose proof (alloc_fresh (heap w)) as Hfresh. simpl in Hfresh.
      intros <-. congruence. }
    { rewrite <- Hw1. simpl.
      pose proof Hwf as (_ & _ & _ & _ & Hnd & _).
      intros (j & Hj)%list_elem_of_lookup.
      apply list_lookup_insert_Some in Hj as [(_ & Hfe & _)|[Hij Hj]].
      - pose proof (alloc_fresh (heap w)) as Hfresh. simpl in Hfresh.
        rewrite Hfe in Hfresh. congruence.
      - pose proof (NoDup_lookup _ _ _ _ Hnd Hslot Hj). lia. }
    unfold delivered in *.
    rewrite Hc in IH |- *. rewrite fmap_app in IH |- *.
    rewrite drop_app_length' in IH by (by rewrite length_fmap).
    rewrite Hcalls, fmap_app, <- app_assoc.
    rewrite drop_app_length' by (by rewrite length_fmap).
    apply Forall_app. split; [|done].
    constructor; [|constructor]. simpl.
    exists detached. split; [done|]. by eapply Hout.
Qed.

Lemma no_later_delivery_witness :
  ∃ w', rotate (exact_ticks T0 second 12) wheel10_cancelled_3 = Ok w' ∧
        Forall (λ c, ∃ m, c.2 = Some m ∧ m !! IInt 3 = None)
               (drop (length (calls wheel10_cancelled_3)) (delivered w')).
Proof.
  pose (w' := run (rotate (exact_ticks T0 second 12) wheel10_cancelled_3)
                  empty_world).
  assert (rotate (exact_ticks T0 second 12) wheel10_cancelled_3 = Ok w') as H
    by (vm_compute; reflexivity).
  exists w'. split; [exact H|].
  apply (no_later_delivery (exact_ticks T0 second 12) wheel10_cancelled_3
           w' (IInt 3)).
  - apply (bool_decide_unpack _). vm_compute. exact I.
  - apply in_no_bucket_Forall.
    apply (bool_decide_unpack _). vm_compute. exact I.
  - exact H.
Defined.

End CallbackLog.
